(** * gri: Gerrit review inspector -- a shallow embedding of [gri/__main__.py]

    The development follows the source file top to bottom: the collaborator
    interfaces the file imports ([gri.gerrit.GerritServer], [gri.review.Review],
    the [rich] console and the logger), the [Config] class, the [App] class
    with its methods [__init__], [query], [header] and [report], and the
    [click] entry points [cli], [owned], [incoming] and [merged].

    Python objects that are mutated in place ([self.servers], [self.reviews])
    live in an explicit state; every call made on a collaborator is recorded
    in a trace of events, and exceptions are results that skip the rest of the
    computation while keeping the mutations done so far. *)

From stdpp Require Import base option list gmap strings pretty sorting.
From Stdlib Require Import Ascii ZArith Lia.

Open Scope Z_scope.

(** ** Exceptions and results *)

(** The exception classes that matter to the control flow of the file.
    [SystemExit] is what [sys.exit] raises, [YAMLError] is [yaml.YAMLError];
    [OtherError] stands for any other class a collaborator may raise. *)
Inductive exn : Type :=
  | SystemError (msg : string)
  | SystemExit (code : Z)
  | YAMLError (msg : string)
  | KeyError (key : string)
  | ValueError (msg : string)
  | IndexError
  | AttributeError (attr : string)
  | OtherError (msg : string).

(** [except SystemError] *)
Definition is_SystemError (e : exn) : bool :=
  match e with SystemError _ => true | _ => false end.

(** [except yaml.YAMLError] *)
Definition is_YAMLError (e : exn) : bool :=
  match e with YAMLError _ => true | _ => false end.

Inductive outcome (A : Type) : Type :=
  | Ret (a : A)
  | Raise (e : exn).
Arguments Ret {A} a.
Arguments Raise {A} e.

(** ** Collaborators: [gri.gerrit] and [gri.review] *)

(** Modelled from the spec: the raw record an endpoint returns and the
    attributes a review is built from ([gri.gerrit] and [gri.review] are
    imported by the file but are not part of the sources).  The attributes are
    the ones of the spec's data model: identifier, project, subject, owner,
    review score (may be absent), work-in-progress flag, age in whole days
    since the last update, and the open/merged/abandoned state. *)
Inductive status : Type := Open | Merged | Abandoned.

Record record : Type := {
  number : Z;
  project : string;
  subject : string;
  owner : string;
  label_score : option Z;
  work_in_progress : bool;
  age_days : Z;
  change_status : status
}.

Module GerritServer.
(** One review-server connection: its display name and URL, and what its
    [query] method answers to a query string (records, or an exception). *)
Record t : Type := {
  url : string;
  name : string;
  query : string → outcome (list record)
}.
End GerritServer.

(** Modelled from the spec: the ordered danger levels (the theme of the file
    names the same five). *)
Inductive danger_level : Type :=
  | Normal | Moderate | Considerable | High | VeryHigh.

Definition danger_rank (d : danger_level) : Z :=
  match d with
  | Normal => 0 | Moderate => 1 | Considerable => 2 | High => 3 | VeryHigh => 4
  end.

Module Review.
(** [Review(record, item)]: the raw record and a reference to the server
    that returned it. *)
Record t : Type := mk {
  data : record;
  server : GerritServer.t
}.

(** Modelled from the spec: the derived attributes of a review.  An absent
    score counts as 0. *)
Definition score (r : t) : Z := default 0 (label_score (data r)).
Definition age (r : t) : Z := age_days (data r).
Definition is_wip (r : t) : bool := work_in_progress (data r).
Definition ident (r : t) : Z := number (data r).
End Review.

(** ** The console and the table it prints *)

Module Table.
Record t : Type := {
  title : string;
  columns : list string;
  rows : list (list string)
}.

(** [Table(title=title, ...)] *)
Definition new (title : string) : t :=
  {| title := title; columns := []; rows := [] |}.

Definition add_column (header : string) (tb : t) : t :=
  {| title := title tb; columns := columns tb ++ [header]; rows := rows tb |}.

Definition add_row (cells : list string) (tb : t) : t :=
  {| title := title tb; columns := columns tb; rows := rows tb ++ [cells] |}.
End Table.

(** ** Events: the calls the file makes on its collaborators *)

(** The options of the [cli] group ([ctx.params]); [cli] passes them to the
    logger. *)
Record params : Type := {
  debug : bool;
  server : option string;
  abandon : bool;
  force : bool;
  abandon_age : Z;
  user : string;
  output : option string
}.

Inductive event : Type :=
  | NewGerritServer (url name : string)            (* GerritServer(url=, name=) *)
  | ServerQuery (srv : GerritServer.t) (q : string) (* item.query(query=q) *)
  | ReviewAbandon (r : Review.t) (dry : bool)      (* review.abandon(dry=) *)
  | TermPrint (text : string)                      (* term.print(str) *)
  | TermPrintTable (tb : Table.t)                  (* term.print(table) *)
  | TermSaveHtml (path : string)                   (* term.save_html(path=) *)
  | LogAddHandler
  | LogSetLevelDebug
  | LogWarning (msg : string) (args : params)      (* LOG.warning(msg, args) *)
  | LogInfo (msg : string)
  | LogError (exc : exn)
  | LogDebug (data : record).

Definition is_query (ev : event) : bool :=
  match ev with ServerQuery _ _ => true | _ => false end.

Definition is_abandon (ev : event) : bool :=
  match ev with ReviewAbandon _ _ => true | _ => false end.

Definition is_new_server (ev : event) : bool :=
  match ev with NewGerritServer _ _ => true | _ => false end.

(** ** A state, trace and exception monad *)

(** A computation over a mutable object of type [S]: it yields a result or an
    exception, the object as it has been mutated, and the events emitted. *)
Definition M (S A : Type) : Type := S → outcome A * S * list event.

Definition result {S A} (x : outcome A * S * list event) : outcome A := x.1.1.
Definition final {S A} (x : outcome A * S * list event) : S := x.1.2.
Definition trace {S A} (x : outcome A * S * list event) : list event := x.2.

Definition bindM {S A B} (k : A → M S B) (m : M S A) : M S B := λ s,
  match m s with
  | (Ret a, s1, t1) =>
      match k a s1 with (r, s2, t2) => (r, s2, t1 ++ t2) end
  | (Raise e, s1, t1) => (Raise e, s1, t1)
  end.

Global Instance M_ret {S} : MRet (M S) := λ A a s, (Ret a, s, []).
Global Instance M_bind {S} : MBind (M S) := λ A B k m, bindM k m.

Definition raise {S A} (e : exn) : M S A := λ s, (Raise e, s, []).
Definition emit {S} (ev : event) : M S unit := λ s, (Ret tt, s, [ev]).
Definition get {S} : M S S := λ s, (Ret s, s, []).
Definition modify {S} (f : S → S) : M S unit := λ s, (Ret tt, f s, []).

(** The result of a call on a collaborator. *)
Definition call {S A} (o : outcome A) : M S A :=
  match o with Ret a => mret a | Raise e => raise e end.

(** [try: body  except <class> as exc: handler exc].  What the body has
    mutated and emitted before raising stays. *)
Definition try_except {S A} (body : M S A) (catches : exn → bool)
    (handler : exn → M S A) : M S A := λ s,
  match body s with
  | (Raise e, s1, t1) =>
      if catches e
      then match handler e s1 with (r, s2, t2) => (r, s2, t1 ++ t2) end
      else (Raise e, s1, t1)
  | x => x
  end.

(** [for x in l: body x] *)
Fixpoint for_each {S A} (l : list A) (body : A → M S unit) : M S unit :=
  match l with
  | [] => mret tt
  | x :: l' => body x ;; for_each l' body
  end.

(** A loop that updates local variables [acc]. *)
Fixpoint for_fold {S A B} (l : list A) (acc : B) (body : B → A → M S B)
    : M S B :=
  match l with
  | [] => mret acc
  | x :: l' => acc' ← body acc x; for_fold l' acc' body
  end.

(** ** Python built-ins *)

(** [d[key]] on a dict *)
Definition getitem {S V} (d : gmap string V) (key : string) : M S V :=
  match d !! key with
  | Some v => mret v
  | None => raise (KeyError key)
  end.

(** [l[i]] on a list: a negative index counts from the end. *)
Definition py_index {A} (l : list A) (i : Z) : option A :=
  let n := Z.of_nat (length l) in
  let j := if i <? 0 then i + n else i in
  if j <? 0 then None else l !! Z.to_nat j.

Definition list_getitem {S A} (l : list A) (i : Z) : M S A :=
  match py_index l i with
  | Some x => mret x
  | None => raise IndexError
  end.

(** [c in s] for a one-character string [c] *)
Fixpoint char_in (c : ascii) (s : string) : bool :=
  match s with
  | EmptyString => false
  | String c' s' => if decide (c = c') then true else char_in c s'
  end.

(** [" ".join(l)] *)
Fixpoint join (sep : string) (l : list string) : string :=
  match l with
  | [] => ""
  | [x] => x
  | x :: l' => x +:+ sep +:+ join sep l'
  end.

(** Truth value of an optional string: [None] and [""] are false. *)
Definition truthy (o : option string) : bool :=
  match o with
  | Some s => negb (String.eqb s "")
  | None => false
  end.

Definition dquote : string := String "034" "".

(** [sorted(l)]: a stable sort that compares elements with [<] only.  It is
    written as a stable insertion sort: an element is placed after the
    elements that are smaller and before all the others, so elements that
    compare equal keep their input order. *)
Section Sorted.
Context {A : Type} (lt : A → A → bool).

Fixpoint insert_sorted (x : A) (l : list A) : list A :=
  match l with
  | [] => [x]
  | y :: l' => if lt y x then y :: insert_sorted x l' else x :: y :: l'
  end.

Definition sorted (l : list A) : list A := foldr insert_sorted [] l.
End Sorted.

(** ** The world outside the file *)

(** [Config] is a dict loaded from [~/.gertty.yaml]; its ["servers"] entry is
    a list of dicts with the keys ["url"] and ["name"]. *)
Abbreviation Config := (gmap string (list (gmap string string))).

Record World : Type := {
  (** What reading [~/.gertty.yaml] yields: the mapping that
      [yaml.safe_load(stream)] returns, or the exception raised on the way,
      by [open] for a file that cannot be read or by [yaml.safe_load], whose
      [YAMLError] is the only one [Config.load_config] handles.  A document
      that is not a mapping makes [self.update] raise and counts as an
      exception of the read. *)
  load_config : outcome Config;
  (** [GerritServer(url=, name=)] *)
  new_server : string → string → outcome GerritServer.t;
  (** [int(s)]; [None] stands for [ValueError]. *)
  int_of_string : string → option Z;
  (** [review.as_columns()], a pure projection to display columns. *)
  as_columns : Review.t → list string;
  (** Modelled from the spec: the danger classification, a function of age in
      days, score and the work-in-progress flag whose thresholds the spec
      leaves open. *)
  classify : Z → Z → bool → danger_level
}.

Module ReviewOrder.
Section Order.
Context (w : World).

Definition danger (r : Review.t) : danger_level :=
  classify w (Review.age r) (Review.score r) (Review.is_wip r).

(** Modelled from the spec: [Review.__lt__], the comparison [sorted] uses
    ([gri.review] is not part of the sources).  Danger level descending,
    then age descending, then identifier ascending. *)
Definition lt (a b : Review.t) : bool :=
  let da := danger_rank (danger a) in
  let db := danger_rank (danger b) in
  (db <? da)
  || ((da =? db)
      && ((Review.age b <? Review.age a)
          || ((Review.age a =? Review.age b)
              && (Review.ident a <? Review.ident b)))).
End Order.
End ReviewOrder.

(** ** class Config *)

Module Config.
Section Load.
Context (w : World).

(** [def load_config(config_file)]: a [yaml.YAMLError] is logged and turned
    into [sys.exit(2)]; any other exception propagates. *)
Definition load_config {S} : M S Config :=
  try_except (call (load_config w)) is_YAMLError
    (λ exc, emit (LogError exc) ;; raise (SystemExit 2)).

(** [Config()]: [__init__] fills the new dict with the loaded mapping. *)
Definition new {S} : M S Config := load_config.
End Load.
End Config.

(** ** class App *)

Module App.
Record t : Type := {
  cfg : Config;
  servers : list GerritServer.t;
  user : string;
  reviews : list Review.t
}.

Definition set_cfg (c : Config) (self : t) : t :=
  {| cfg := c; servers := servers self; user := user self;
     reviews := reviews self |}.
Definition set_servers (l : list GerritServer.t) (self : t) : t :=
  {| cfg := cfg self; servers := l; user := user self;
     reviews := reviews self |}.
Definition set_user (u : string) (self : t) : t :=
  {| cfg := cfg self; servers := servers self; user := u;
     reviews := reviews self |}.
Definition set_reviews (l : list Review.t) (self : t) : t :=
  {| cfg := cfg self; servers := servers self; user := user self;
     reviews := l |}.

(** The object before [__init__] has assigned its attributes.  [__init__]
    assigns every attribute before it is read. *)
Definition blank : t :=
  {| cfg := ∅; servers := []; user := ""; reviews := [] |}.

Section Methods.
Context (w : World).

(** [def header(self)] *)
Definition header (self : t) : string :=
  let srv_list := join " " (GerritServer.name <$> servers self) in
  "[dim]GRI using " +:+ pretty (Z.of_nat (length (servers self)))
    +:+ " servers: " +:+ srv_list +:+ "[/]".

(** [def __init__(self, server=None, user=None)] *)
Definition __init__ (server : option string) (user : string) : M t unit :=
  c ← Config.new w;
  modify (set_cfg c) ;;
  modify (set_servers []) ;;
  modify (set_user user) ;;
  selected ←
    match server with
    | None => getitem c "servers"
    | Some s =>
        all ← getitem c "servers";
        i ← match int_of_string w s with
            | Some i => mret i
            | None => raise (ValueError s)
            end;
        srv ← list_getitem all i;
        mret [srv]
    end;
  for_each selected (λ srv,
    try_except
      (url ← getitem srv "url";
       name ← getitem srv "name";
       emit (NewGerritServer url name) ;;
       g ← call (new_server w url name);
       modify (λ self, set_servers (servers self ++ [g]) self))
      is_SystemError
      (λ exc, emit (LogError exc))) ;;
  self ← get;
  match servers self with
  | [] => raise (SystemExit 1)
  | _ :: _ =>
      modify (set_reviews []) ;;
      self ← get;
      emit (TermPrint (header self))
  end.

(** [App(server=, user=)] *)
Definition new (server : option string) (user : string)
    : outcome unit * t * list event :=
  __init__ server user blank.

(** [def query(self, query)] *)
Definition query (q : string) : M t unit :=
  modify (set_reviews []) ;;
  self ← get;
  for_each (servers self) (λ item,
    emit (ServerQuery item q) ;;
    records ← call (GerritServer.query item q);
    for_each records (λ record,
      modify (λ self,
        set_reviews (reviews self ++ [Review.mk record item]) self))).

(** [def report(self, query=None, title="Reviews")]; the parameter
    [query] is written [qry] to keep it apart from the method. *)
Definition report (qry : option string) (title : string) : M t unit :=
  (if truthy qry then query (default "" qry) else mret tt) ;;
  let cnt := 0 in
  let table := Table.new title in
  let table := Table.add_column "Review" table in
  let table := Table.add_column "Age" table in
  let table := Table.add_column "Project/Subject" table in
  let table := Table.add_column "Meta" table in
  let table := Table.add_column "Score" table in
  self ← get;
  '(table, cnt) ←
    for_fold (sorted (ReviewOrder.lt w) (reviews self)) (table, cnt)
      (λ '(table, cnt) review,
         let table := Table.add_row (as_columns w review) table in
         emit (LogDebug (Review.data review)) ;;
         mret (table, cnt + 1));
  emit (TermPrintTable table) ;;
  let extra :=
    if truthy qry
    then " from: [cyan]" +:+ default "" qry +:+ "[/]"
    else "" in
  emit (TermPrint ("[dim]-- " +:+ pretty cnt +:+ " changes listed"
                     +:+ extra +:+ "[/]")).
End Methods.
End App.

(** ** The command line: [cli] and its subcommands *)

Module Ctx.
(** The [click] context: the parsed options, the name of the invoked
    subcommand and the application object stored in [ctx.obj]. *)
Record t : Type := {
  params : params;
  invoked_subcommand : option string;
  obj : option App.t
}.

Definition set_obj (o : option App.t) (ctx : t) : t :=
  {| params := params ctx; invoked_subcommand := invoked_subcommand ctx;
     obj := o |}.
End Ctx.

Inductive command : Type :=
  | CmdOwned
  | CmdIncoming
  | CmdMerged (age : Z).

Section Cli.
Context (w : World).

(** A method call on [ctx.obj]; the object is mutated in place. *)
Definition on_obj {A} (m : M App.t A) : M Ctx.t A := λ ctx,
  match Ctx.obj ctx with
  | None => (Raise (AttributeError "obj"), ctx, [])
  | Some app =>
      match m app with (r, app', t) => (r, Ctx.set_obj (Some app') ctx, t) end
  end.

(** [ctx.obj = App(server=server, user=user)] *)
Definition new_app (server : option string) (user : string) : M Ctx.t unit :=
  λ ctx,
  match App.new w server user with
  | (Ret _, app, t) => (Ret tt, Ctx.set_obj (Some app) ctx, t)
  | (Raise e, _, t) => (Raise e, ctx, t)
  end.

(** [def owned(ctx)] *)
Definition owned : M Ctx.t unit :=
  let query := "status:open" in
  u ← on_obj (self ← get; mret (App.user self));
  let query := query +:+ " owner:" +:+ u in
  let title :=
    if String.eqb u "self" then "Own reviews"
    else "Reviews owned by " +:+ u in
  on_obj (App.report w (Some query) title).

(** [def incoming(ctx)] *)
Definition incoming : M Ctx.t unit :=
  u ← on_obj (self ← get; mret (App.user self));
  let query := "reviewer:" +:+ u +:+ " status:open" in
  on_obj (App.report w (Some query) "Merged Reviews").

(** [def merged(ctx, age)] *)
Definition merged (age : Z) : M Ctx.t unit :=
  let query := " status:merged -age:" +:+ pretty age +:+ "d" in
  u ← on_obj (self ← get; mret (App.user self));
  let query := query +:+ " owner:" +:+ u in
  on_obj (App.report w (Some query)
            ("Merged Reviews (" +:+ pretty age +:+ "d)")).

(** [def cli(ctx, debug, server, abandon, force, abandon_age, user, output)].
    The options [abandon], [force] and [abandon_age] are received and,
    apart from the log line that shows [ctx.params], not used: the lines of
    [report] that would act on them are comments. *)
Definition cli : M Ctx.t unit :=
  ctx ← get;
  let p := Ctx.params ctx in
  emit LogAddHandler ;;
  emit (LogWarning "Called with %s" p) ;;
  (if debug p then emit LogSetLevelDebug else mret tt) ;;
  let user :=
    if char_in " " (user p) then dquote +:+ user p +:+ dquote
    else user p in
  new_app (server p) user ;;
  match Ctx.invoked_subcommand ctx with
  | None =>
      emit (LogInfo
        "I was invoked without subcommand, assuming implicit `owned` command") ;;
      owned
  | Some _ => mret tt
  end ;;
  (if truthy (output p)
   then emit (TermSaveHtml (default "" (output p)))
   else mret tt).

Definition invoke (c : command) : M Ctx.t unit :=
  match c with
  | CmdOwned => owned
  | CmdIncoming => incoming
  | CmdMerged age => merged age
  end.

(** One run of the program.  [click] calls the group callback [cli] first,
    with [ctx.invoked_subcommand] set to [None] when no subcommand is given
    and to ["*"] otherwise (the group is declared with [chain=True]), and
    then the given subcommands in order. *)
Definition main (p : params) (cmds : list command)
    : outcome unit * Ctx.t * list event :=
  (cli ;; for_each cmds invoke)
    {| Ctx.params := p;
       Ctx.invoked_subcommand :=
         match cmds with [] => None | _ :: _ => Some "*" end;
       Ctx.obj := None |}.
End Cli.

(** ** class CustomGroup *)






(** ** Concrete worlds *)

Module Examples.
Definition change (n age : Z) (score : option Z) (wip : bool) : record :=
  {| number := n; project := "gri"; subject := "fix"; owner := "alice";
     label_score := score; work_in_progress := wip; age_days := age;
     change_status := Open |}.

(** The scenario of the spec: server A returns three open changes (ages 5,
    95 and 120 days; scores 1, -1 and -2), server B one work-in-progress
    change (200 days, score -2). *)
Definition records_A : list record :=
  [change 101 5 (Some 1) false; change 102 95 (Some (-1)) false;
   change 103 120 (Some (-2)) false].
Definition records_B : list record := [change 201 200 (Some (-2)) true].

Definition srv_A : GerritServer.t :=
  {| GerritServer.url := "https://a.example/"; GerritServer.name := "A";
     GerritServer.query := λ _, Ret records_A |}.
Definition srv_B : GerritServer.t :=
  {| GerritServer.url := "https://b.example/"; GerritServer.name := "B";
     GerritServer.query := λ _, Ret records_B |}.
(** A server whose query fails. *)
Definition srv_down : GerritServer.t :=
  {| GerritServer.url := "https://down.example/"; GerritServer.name := "down";
     GerritServer.query := λ _, Raise (OtherError "connection refused") |}.

Definition entry (url name : string) : gmap string string :=
  {[ "url" := url; "name" := name ]}.
Definition entry_A := entry "https://a.example/" "A".
Definition entry_B := entry "https://b.example/" "B".
(** An entry [GerritServer] rejects with [SystemError]. *)
Definition entry_rejected := entry "https://x.example/" "X".
(** An entry of the configuration file without the key ["url"]. *)
Definition entry_no_url : gmap string string := {[ "name" := "N" ]}.

Definition config (entries : list (gmap string string)) : Config :=
  {[ "servers" := entries ]}.

Definition connect (url name : string) : outcome GerritServer.t :=
  if String.eqb name "A" then Ret srv_A
  else if String.eqb name "B" then Ret srv_B
  else if String.eqb name "down" then Ret srv_down
  else Raise (SystemError "no credentials").

Definition digit (s : string) : option Z :=
  if String.eqb s "0" then Some 0
  else if String.eqb s "1" then Some 1
  else if String.eqb s "-1" then Some (-1)
  else None.

Definition columns_of (r : Review.t) : list string :=
  [pretty (Review.ident r); pretty (Review.age r);
   project (Review.data r) +:+ "/" +:+ subject (Review.data r);
   if Review.is_wip r then "wip" else "";
   pretty (Review.score r)].

(** One classification that is monotonic in age and score and keeps
    work-in-progress changes at or below [Moderate]. *)
Definition danger_of (age score : Z) (wip : bool) : danger_level :=
  if wip then (if score <? 0 then Moderate else Normal)
  else if score <? 0 then
    (if 90 <=? age then VeryHigh else if 30 <=? age then High
     else Considerable)
  else if 90 <=? age then Moderate else Normal.

Definition world (entries : list (gmap string string)) : World :=
  {| load_config := Ret (config entries);
     new_server := connect;
     int_of_string := digit;
     as_columns := columns_of;
     classify := danger_of |}.

Definition options (u : string) (abandon force : bool) : params :=
  {| debug := false; server := None; abandon := abandon; force := force;
     abandon_age := 90; user := u; output := None |}.

Definition app_of (srvs : list GerritServer.t) (rs : list Review.t) : App.t :=
  {| App.cfg := ∅; App.servers := srvs; App.user := "self";
     App.reviews := rs |}.
End Examples.

(** ** Vocabulary of the statements *)

(** The calls of [review.abandon] in a trace. *)
Definition abandon_calls (t : list event) : list event := List.filter is_abandon t.

(** The calls of [item.query] in a trace. *)
Definition query_calls (t : list event) : list event := List.filter is_query t.

(** The tables and the lines printed on the console in a trace. *)
Definition tables_printed (t : list event) : list Table.t :=
  omap (λ ev, match ev with TermPrintTable tb => Some tb | _ => None end) t.

Definition lines_printed (t : list event) : list string :=
  omap (λ ev, match ev with TermPrint text => Some text | _ => None end) t.

(** The calls of the [GerritServer] constructor in a trace. *)
Definition constructor_calls (t : list event) : list event :=
  List.filter is_new_server t.

(** The reviews built from the records [recs] that server [s] returned. *)
Definition stamped (s : GerritServer.t) (recs : list record) : list Review.t :=
  (λ r, Review.mk r s) <$> recs.

(** [answers q srvs results]: every server of [srvs] answers the query [q],
    the i-th one with the records [results !! i]. *)
Definition answers (q : string) (srvs : list GerritServer.t)
    (results : list (list record)) : Prop :=
  Forall2 (λ s recs, GerritServer.query s q = Ret recs) srvs results.

(** The concatenation of the servers' results, each record stamped with its
    server. *)
Definition concatenation (srvs : list GerritServer.t)
    (results : list (list record)) : list Review.t :=
  concat (zip_with stamped srvs results).

(** The entry [srv] of the configuration yields the server [g]. *)
Definition constructs (w : World) (srv : gmap string string)
    (g : GerritServer.t) : Prop :=
  ∃ url name,
    srv !! "url" = Some url ∧ srv !! "name" = Some name ∧
    new_server w url name = Ret g.

(** The entry [srv] of the configuration is rejected with [SystemError]. *)
Definition rejected (w : World) (srv : gmap string string) : Prop :=
  ∃ url name msg,
    srv !! "url" = Some url ∧ srv !! "name" = Some name ∧
    new_server w url name = Raise (SystemError msg).

(** The servers the entries [l] yield, in order. *)
Definition constructed (w : World) (l : list (gmap string string))
    : list GerritServer.t :=
  omap (λ srv : gmap string string,
          url ← srv !! "url";
          name ← srv !! "name";
          match new_server w url name with
          | Ret g => Some g
          | Raise _ => None
          end) l.

(** The constructor calls for the entries [l], in order. *)
Definition attempts (l : list (gmap string string)) : list event :=
  omap (λ srv : gmap string string,
          url ← srv !! "url";
          name ← srv !! "name";
          Some (NewGerritServer url name)) l.

(** The [SystemError]s the constructor raises for the entries [l], in
    order. *)
Definition rejections (w : World) (l : list (gmap string string)) : list exn :=
  omap (λ srv : gmap string string,
          url ← srv !! "url";
          name ← srv !! "name";
          match new_server w url name with
          | Raise (SystemError msg) => Some (SystemError msg)
          | _ => None
          end) l.

(** The user string as it is embedded in a query. *)
Definition embedded (u : string) : string :=
  if char_in " " u then dquote +:+ u +:+ dquote else u.

(** The query string of a subcommand for the embedded user string [u]. *)
Definition query_of (c : command) (u : string) : string :=
  match c with
  | CmdOwned => "status:open owner:" +:+ u
  | CmdIncoming => "reviewer:" +:+ u +:+ " status:open"
  | CmdMerged age => " status:merged -age:" +:+ pretty age +:+ "d owner:" +:+ u
  end.

(** The subcommands that run: [owned] when none is given. *)
Definition commands_run (cmds : list command) : list command :=
  match cmds with [] => [CmdOwned] | _ :: _ => cmds end.

(** Modelled from the spec: the eligibility predicate of the abandon policy.
    The item is open, its score is negative, its age is at or above the
    threshold, and the query is not the incoming view. *)
Definition eligible (max_age : Z) (c : command) (r : Review.t) : bool :=
  match change_status (Review.data r) with Open => true | _ => false end
  && (Review.score r <? 0)
  && (max_age <=? Review.age r)
  && match c with CmdIncoming => false | _ => true end.

(** The order of the report on two reviews: danger level descending, then age
    descending, then identifier ascending. *)
Definition report_order (w : World) (a b : Review.t) : Prop :=
  let da := danger_rank (ReviewOrder.danger w a) in
  let db := danger_rank (ReviewOrder.danger w b) in
  db < da ∨
  (da = db ∧
   (Review.age b < Review.age a ∨
    (Review.age a = Review.age b ∧ Review.ident a ≤ Review.ident b))).

(** The summary line of a report of [n] changes. *)
Definition summary (n : nat) (qry : option string) : string :=
  "[dim]-- " +:+ pretty (Z.of_nat n) +:+ " changes listed"
    +:+ match qry with
        | Some q => if String.eqb q "" then "" else " from: [cyan]" +:+ q +:+ "[/]"
        | None => ""
        end
    +:+ "[/]".

(** [hoare I P Q m]: run from a state that satisfies [I], the computation [m]
    leaves a state that satisfies [I] (also when it raises), emits only
    events that satisfy [P], and returns only values that satisfy [Q]. *)
Definition hoare {S A} (I : S → Prop) (P : event → Prop) (Q : A → Prop)
    (m : M S A) : Prop :=
  ∀ s, I s →
    I (final (m s)) ∧ Forall P (trace (m s)) ∧
    ∀ a, result (m s) = Ret a → Q a.

(** The parts of [App.__init__]: the selection of the configuration entries,
    the body of its loop, and the check that ends it. *)
Definition select_entries (w : World) (c : Config) (server : option string)
    : M App.t (list (gmap string string)) :=
  match server with
  | None => getitem c "servers"
  | Some s =>
      all ← getitem c "servers";
      i ← match int_of_string w s with
          | Some i => mret i
          | None => raise (ValueError s)
          end;
      srv ← list_getitem all i;
      mret [srv]
  end.

Definition init_body (w : World) (srv : gmap string string) : M App.t unit :=
  try_except
    (url ← getitem srv "url";
     name ← getitem srv "name";
     emit (NewGerritServer url name) ;;
     g ← call (new_server w url name);
     modify (λ self, App.set_servers (App.servers self ++ [g]) self))
    is_SystemError
    (λ exc, emit (LogError exc)).

Definition init_finish : M App.t unit :=
  self ← get;
  match App.servers self with
  | [] => raise (SystemExit 1)
  | _ :: _ =>
      modify (App.set_reviews []) ;;
      self ← get;
      emit (TermPrint (App.header self))
  end.

(** The body of the loop of [App.report]. *)
Definition report_body (w : World)
    : Table.t * Z → Review.t → M App.t (Table.t * Z) :=
  λ '(table, cnt) review,
    let table := Table.add_row (as_columns w review) table in
    emit (LogDebug (Review.data review)) ;;
    mret (table, cnt + 1).

(** The empty table of [App.report]. *)
Definition report_table (title : string) : Table.t :=
  {| Table.title := title;
     Table.columns := ["Review"; "Age"; "Project/Subject"; "Meta"; "Score"];
     Table.rows := [] |}.

(** The body of the outer loop of [query]. *)
Definition query_body (q : string) (item : GerritServer.t) : M App.t unit :=
  emit (ServerQuery item q) ;;
  records ← call (GerritServer.query item q);
  for_each records (λ record,
    modify (λ self,
      App.set_reviews (App.reviews self ++ [Review.mk record item]) self)).

(** The line [report] prints last. *)
Definition summary_line (cnt : Z) (qry : option string) : string :=
  "[dim]-- " +:+ pretty cnt +:+ " changes listed"
    +:+ (if truthy qry then " from: [cyan]" +:+ default "" qry +:+ "[/]"
         else "")
    +:+ "[/]".

(** The events of [cli] before it builds the application. *)
Definition cli_head (p : params) : list event :=
  [LogAddHandler; LogWarning "Called with %s" p]
    ++ (if debug p then [LogSetLevelDebug] else []).

(** The context [click] hands to [cli]. *)
Definition initial_ctx (p : params) (cmds : list command) : Ctx.t :=
  {| Ctx.params := p;
     Ctx.invoked_subcommand :=
       match cmds with [] => None | _ :: _ => Some "*" end;
     Ctx.obj := None |}.

(** [not_after lt x y]: in the order of the comparison [lt], [y] does not
    come before [x]. *)
Definition not_after {A} (lt : A → A → bool) (x y : A) : Prop := lt y x = false.

(** The invariant of a run on the [click] context: the options and the
    subcommand marker are the ones [click] has set, and the application
    object, once it exists, satisfies [Ia]. *)
Definition ctx_invariant (p : params) (cmds : list command)
    (Ia : App.t → Prop) (ctx : Ctx.t) : Prop :=
  Ctx.params ctx = p ∧
  Ctx.invoked_subcommand ctx
    = match cmds with [] => None | _ :: _ => Some "*" end ∧
  ∀ app, Ctx.obj ctx = Some app → Ia app.

(** The exceptions logged with [LOG.error] in a trace. *)
Definition errors_logged (t : list event) : list exn :=
  omap (λ ev, match ev with LogError exc => Some exc | _ => None end) t.

(** The paths of [term.save_html] calls in a trace. *)
Definition html_saved (t : list event) : list string :=
  omap (λ ev, match ev with TermSaveHtml path => Some path | _ => None end) t.

(** [aborts_with w srv e calls]: the entry [srv] of the configuration makes
    the loop of [__init__] raise [e], an exception that is not a
    [SystemError], after the constructor calls [calls]: it has no ["url"] or
    no ["name"], or the constructor raises [e]. *)
Definition aborts_with (w : World) (srv : gmap string string) (e : exn)
    (calls : list event) : Prop :=
  (srv !! "url" = None ∧ e = KeyError "url" ∧ calls = []) ∨
  (∃ url, srv !! "url" = Some url ∧ srv !! "name" = None ∧
          e = KeyError "name" ∧ calls = []) ∨
  (∃ url name, srv !! "url" = Some url ∧ srv !! "name" = Some name ∧
               new_server w url name = Raise e ∧ is_SystemError e = false ∧
               calls = [NewGerritServer url name]).

(** The [term.save_html] call of [cli]: made when [--output] is given. *)
Definition html_export (p : params) : list event :=
  if truthy (output p) then [TermSaveHtml (default "" (output p))] else [].

(** The line [cli] logs when no subcommand is given. *)
Definition implicit_owned : event :=
  LogInfo "I was invoked without subcommand, assuming implicit `owned` command".

(** The title of the table of a subcommand for the stored user string [u]. *)
Definition title_of (c : command) (u : string) : string :=
  match c with
  | CmdOwned =>
      if String.eqb u "self" then "Own reviews" else "Reviews owned by " +:+ u
  | CmdIncoming => "Merged Reviews"
  | CmdMerged age => "Merged Reviews (" +:+ pretty age +:+ "d)"
  end.

(** What a run shows to the outside: its result, the application object it
    leaves in [ctx.obj], and its events. *)
Definition observe {A} (x : outcome A * Ctx.t * list event)
    : outcome A * option App.t * list event :=
  (result x, Ctx.obj (final x), trace x).

(** The options with other values for [--abandon], [--force] and
    [--abandon-age]. *)
Definition with_abandon (a f : bool) (age : Z) (p : params) : params :=
  {| debug := debug p; server := server p; abandon := a; force := f;
     abandon_age := age; user := user p; output := output p |}.

(** The queries of a run that returns: each subcommand's query for the user
    string [u], sent to every server of [srvs] in order. *)
Definition queries_of (cmds : list command) (u : string)
    (srvs : list GerritServer.t) : list event :=
  c ← cmds; (λ item, ServerQuery item (query_of c u)) <$> srvs.

(** ** The monad *)

Lemma run_bind {S A B} (m : M S A) (k : A → M S B) (s : S) :
  (m ≫= k) s =
  match m s with
  | (Ret a, s1, t1) =>
      match k a s1 with (r, s2, t2) => (r, s2, t1 ++ t2) end
  | (Raise e, s1, t1) => (Raise e, s1, t1)
  end.
Proof. reflexivity. Qed.

Lemma run_ret_bind {S A B} (a : A) (k : A → M S B) (s : S) :
  (mret a ≫= k) s = k a s.
Proof. rewrite run_bind. simpl. by destruct (k a s) as [[r s2] t2]. Qed.

Lemma run_raise_bind {S A B} (e : exn) (k : A → M S B) (s : S) :
  (raise e ≫= k) s = (Raise e, s, []).
Proof. done. Qed.

Lemma run_get_bind {S B} (k : S → M S B) (s : S) : (get ≫= k) s = k s s.
Proof. rewrite run_bind. simpl. by destruct (k s s) as [[r s2] t2]. Qed.

Lemma run_modify_bind {S B} (f : S → S) (k : unit → M S B) (s : S) :
  (modify f ≫= k) s = k tt (f s).
Proof. rewrite run_bind. simpl. by destruct (k tt (f s)) as [[r s2] t2]. Qed.

Lemma run_emit_bind {S B} (ev : event) (k : unit → M S B) (s : S) :
  (emit ev ≫= k) s = match k tt s with (r, s2, t2) => (r, s2, ev :: t2) end.
Proof. done. Qed.

Lemma run_call_bind {S A B} (o : outcome A) (k : A → M S B) (s : S) :
  (call o ≫= k) s
  = match o with Ret a => k a s | Raise e => (Raise e, s, []) end.
Proof. destruct o as [a|e]; [apply run_ret_bind | done]. Qed.

Ltac run :=
  repeat (rewrite ?run_ret_bind, ?run_get_bind, ?run_modify_bind,
            ?run_emit_bind, ?run_call_bind, ?run_raise_bind; simpl).

Lemma for_each_app {S A} (l1 l2 : list A) (body : A → M S unit) (s : S) :
  for_each (l1 ++ l2) body s = (for_each l1 body ;; for_each l2 body) s.
Proof.
  revert s. induction l1 as [|x l1 IH]; intros s; simpl.
  - rewrite run_bind. simpl. by destruct (for_each l2 body s) as [[r s2] t2].
  - rewrite !run_bind. destruct (body x s) as [[[[]|e] s1] t1]; [|done].
    rewrite IH, run_bind.
    destruct (for_each l1 body s1) as [[[[]|e] s2] t2]; [|done].
    destruct (for_each l2 body s2) as [[r s3] t3]. by rewrite app_assoc.
Qed.

Section Hoare.
Context {S : Type} (I : S → Prop) (P : event → Prop).

Lemma hoare_ret {A} (Q : A → Prop) (a : A) : Q a → hoare I P Q (mret a).
Proof.
  intros Ha s Hs. split_and!; [done | constructor |].
  intros a' [= <-]. done.
Qed.

Lemma hoare_raise {A} (Q : A → Prop) (e : exn) : hoare I P Q (raise e).
Proof. intros s Hs. split_and!; [done | constructor | done]. Qed.

Lemma hoare_get (Q : S → Prop) : (∀ s, I s → Q s) → hoare I P Q get.
Proof.
  intros HQ s Hs. split_and!; [done | constructor |].
  intros a [= <-]. by apply HQ.
Qed.

Lemma hoare_modify (Q : unit → Prop) (f : S → S) :
  (∀ s, I s → I (f s)) → Q tt → hoare I P Q (modify f).
Proof.
  intros Hf Ht s Hs. split_and!; [by apply Hf | constructor |].
  by intros [] _.
Qed.

Lemma hoare_emit (Q : unit → Prop) (ev : event) :
  P ev → Q tt → hoare I P Q (emit ev).
Proof.
  intros Hev Ht s Hs. split_and!; [done | by repeat constructor |].
  by intros [] _.
Qed.

Lemma hoare_call {A} (Q : A → Prop) (o : outcome A) :
  (∀ a, o = Ret a → Q a) → hoare I P Q (call o).
Proof.
  intros HQ. destruct o as [a|e]; [apply hoare_ret; by apply HQ|].
  apply hoare_raise.
Qed.

Lemma hoare_bind {A B} (Q : A → Prop) (R : B → Prop) (m : M S A)
    (k : A → M S B) :
  hoare I P Q m → (∀ a, Q a → hoare I P R (k a)) → hoare I P R (m ≫= k).
Proof.
  intros Hm Hk s Hs. rewrite run_bind. destruct (Hm s Hs) as (HI & HP & HQ).
  destruct (m s) as [[[a|e] s1] t1]; [|done].
  unfold result, final, trace in *; simpl in *.
  destruct (Hk a (HQ a eq_refl) s1 HI) as (HI' & HP' & HR).
  destruct (k a s1) as [[r s2] t2]; simpl in *.
  split_and!; [done | by apply Forall_app | done].
Qed.

Lemma hoare_conseq {A} (Q Q' : A → Prop) (m : M S A) :
  hoare I P Q m → (∀ a, Q a → Q' a) → hoare I P Q' m.
Proof.
  intros Hm HQ s Hs. destruct (Hm s Hs) as (HI & HP & Hr).
  split_and!; [done | done |]. intros a Ha. by apply HQ, Hr.
Qed.

Lemma hoare_try {A} (Q : A → Prop) (body : M S A) catches
    (handler : exn → M S A) :
  hoare I P Q body → (∀ e, hoare I P Q (handler e)) →
  hoare I P Q (try_except body catches handler).
Proof.
  intros Hb Hh s Hs. unfold try_except.
  destruct (Hb s Hs) as (HI & HP & HQ).
  destruct (body s) as [[[a|e] s1] t1]; [done|].
  destruct (catches e); [|done].
  unfold result, final, trace in *; simpl in *.
  destruct (Hh e s1 HI) as (HI' & HP' & HQ').
  destruct (handler e s1) as [[r s2] t2]; simpl in *.
  split_and!; [done | by apply Forall_app | done].
Qed.

Lemma hoare_for_each {A} (l : list A) (body : A → M S unit) :
  (∀ x, x ∈ l → hoare I P (λ _, True) (body x)) →
  hoare I P (λ _, True) (for_each l body).
Proof.
  induction l as [|x l IH]; intros Hb; simpl.
  - by apply hoare_ret.
  - apply hoare_bind with (Q := λ _, True).
    + apply Hb. left.
    + intros _ _. apply IH. intros y Hy. apply Hb. by right.
Qed.

Lemma hoare_for_fold {A B} (l : list A) (acc : B) (body : B → A → M S B) :
  (∀ b x, hoare I P (λ _, True) (body b x)) →
  hoare I P (λ _, True) (for_fold l acc body).
Proof.
  intros Hb. revert acc. induction l as [|x l IH]; intros acc; simpl.
  - by apply hoare_ret.
  - apply hoare_bind with (Q := λ _, True); [apply Hb | intros b _; apply IH].
Qed.

Lemma hoare_getitem {V} (Q : V → Prop) (d : gmap string V) (key : string) :
  (∀ v, d !! key = Some v → Q v) → hoare I P Q (getitem d key).
Proof.
  intros HQ. unfold getitem. destruct (d !! key) as [v|].
  - apply hoare_ret. by apply HQ.
  - apply hoare_raise.
Qed.

Lemma hoare_list_getitem {A} (Q : A → Prop) (l : list A) (i : Z) :
  (∀ x, x ∈ l → Q x) → hoare I P Q (list_getitem l i).
Proof.
  intros HQ. unfold list_getitem, py_index.
  destruct (_ <? 0); [|]; [apply hoare_raise|].
  destruct (l !! _) as [x|] eqn:Hx; [|apply hoare_raise].
  apply hoare_ret, HQ. by apply list_elem_of_lookup_2 in Hx.
Qed.
End Hoare.

(** ** [App.query] *)

Lemma set_reviews_id (self : App.t) :
  App.set_reviews (App.reviews self) self = self.
Proof. by destruct self. Qed.

Lemma set_reviews_twice (l1 l2 : list Review.t) (self : App.t) :
  App.set_reviews l2 (App.set_reviews l1 self) = App.set_reviews l2 self.
Proof. done. Qed.

(** The inner loop appends the records of one server, stamped with it. *)
Lemma append_records (item : GerritServer.t) (records : list record)
    (self : App.t) :
  for_each records (λ record,
    modify (λ self,
      App.set_reviews (App.reviews self ++ [Review.mk record item]) self)) self
  = (Ret tt, App.set_reviews (App.reviews self ++ stamped item records) self, []).
Proof.
  revert self. induction records as [|r records IH]; intros self; simpl.
  - by rewrite app_nil_r, set_reviews_id.
  - rewrite run_bind. simpl. rewrite IH. simpl.
    by rewrite set_reviews_twice, <- app_assoc.
Qed.

Lemma query_body_ok q item recs self :
  GerritServer.query item q = Ret recs →
  query_body q item self
  = (Ret tt, App.set_reviews (App.reviews self ++ stamped item recs) self,
     [ServerQuery item q]).
Proof.
  intros Hq. unfold query_body. run. rewrite Hq, append_records. done.
Qed.

Lemma query_body_fails q item e self :
  GerritServer.query item q = Raise e →
  query_body q item self = (Raise e, self, [ServerQuery item q]).
Proof.
  intros Hq. unfold query_body. run. by rewrite Hq.
Qed.

Lemma query_loop_ok q srvs results self :
  answers q srvs results →
  for_each srvs (query_body q) self
  = (Ret tt,
     App.set_reviews (App.reviews self ++ concatenation srvs results) self,
     (λ s, ServerQuery s q) <$> srvs).
Proof.
  intros H. revert self. induction H as [|s recs srvs results Hs _ IH];
    intros self; simpl.
  - unfold concatenation. simpl. by rewrite app_nil_r, set_reviews_id.
  - rewrite run_bind, (query_body_ok _ _ _ _ Hs), IH. simpl.
    unfold concatenation. simpl. by rewrite set_reviews_twice, <- app_assoc.
Qed.

Lemma query_unfold q self :
  App.query q self
  = match for_each (App.servers self) (query_body q) (App.set_reviews [] self)
    with (r, s, t) => (r, s, t) end.
Proof.
  unfold App.query. run. by destruct (for_each _ _ _) as [[r s] t].
Qed.

Lemma concatenation_length q srvs results :
  answers q srvs results →
  length (concatenation srvs results) = sum_list (length <$> results).
Proof.
  induction 1 as [|s recs srvs results _ _ IH]; [done|].
  unfold concatenation in *. simpl.
  rewrite length_app, IH. unfold stamped. by rewrite length_fmap.
Qed.

Lemma concatenation_elem q srvs results rv :
  answers q srvs results →
  rv ∈ concatenation srvs results ↔
  ∃ (i : nat) s recs,
    srvs !! i = Some s ∧ results !! i = Some recs ∧
    Review.server rv = s ∧ Review.data rv ∈ recs.
Proof.
  induction 1 as [|s recs srvs results _ _ IH].
  - split; [by intros ?%elem_of_nil | by intros (i & ? & ? & ? & _)].
  - unfold concatenation in *. simpl. rewrite elem_of_app, IH. split.
    + intros [Hin | (i & s' & recs' & ? & ? & ? & ?)].
      * apply list_elem_of_fmap in Hin as (r & -> & Hr).
        by exists 0%nat, s, recs.
      * by exists (S i), s', recs'.
    + intros ([|i] & s' & recs' & Hs & Hr & Hsrv & Hdata); simplify_eq/=.
      * left. apply list_elem_of_fmap. exists (Review.data rv).
        split; [by destruct rv | done].
      * right. by exists i, (Review.server rv), recs'.
Qed.

Lemma query_ok q self results :
  answers q (App.servers self) results →
  App.query q self
  = (Ret tt, App.set_reviews (concatenation (App.servers self) results) self,
     (λ s, ServerQuery s q) <$> App.servers self).
Proof.
  intros H. rewrite query_unfold.
  change (App.servers self) with (App.servers (App.set_reviews [] self)) at 1.
  by rewrite (query_loop_ok _ _ _ _ H).
Qed.

Lemma query_calls_all q (srvs : list GerritServer.t) :
  query_calls ((λ s, ServerQuery s q) <$> srvs) = (λ s, ServerQuery s q) <$> srvs.
Proof. induction srvs as [|s srvs IH]; simpl; [done | by f_equal]. Qed.

(** C3.  When every endpoint answers the query, [App.query] returns, each
    endpoint is queried once in order, and the stored collection is the
    concatenation of the endpoints' results in endpoint order, nothing
    dropped or merged: its size is the sum of the endpoints' record counts,
    and a review is in it exactly when its record was returned by the
    endpoint it is stamped with. *)
Theorem query_concatenates (q : string) (self : App.t)
    (results : list (list record)) :
  answers q (App.servers self) results →
  let x := App.query q self in
  result x = Ret tt ∧
  App.reviews (final x) = concatenation (App.servers self) results ∧
  length (App.reviews (final x)) = sum_list (length <$> results) ∧
  (∀ rv, rv ∈ App.reviews (final x) ↔
     ∃ (i : nat) s recs,
       App.servers self !! i = Some s ∧ results !! i = Some recs ∧
       Review.server rv = s ∧ Review.data rv ∈ recs) ∧
  query_calls (trace x) = (λ s, ServerQuery s q) <$> App.servers self.
Proof.
  intros H x. subst x. rewrite (query_ok _ _ _ H).
  unfold result, final, trace. simpl. split_and!; [done|done| | |].
  - by apply concatenation_length with q.
  - intros rv. by apply concatenation_elem with q.
  - apply query_calls_all.
Qed.

Lemma query_concatenates_witness :
  answers "status:open" [Examples.srv_A; Examples.srv_B]
    [Examples.records_A; Examples.records_B] ∧
  length (App.reviews (final (App.query "status:open"
            (Examples.app_of [Examples.srv_A; Examples.srv_B] [])))) = 4%nat.
Proof.
  split.
  - repeat constructor.
  - apply (query_concatenates "status:open"
             (Examples.app_of [Examples.srv_A; Examples.srv_B] [])
             [Examples.records_A; Examples.records_B]).
    repeat constructor.
Defined.

(** C1, as the code has it.  When the query of an endpoint raises,
    [App.query] raises the same exception: the endpoints after it are not
    queried, and the stored collection holds the items of the endpoints
    before it. *)
Theorem query_failure_propagates (q : string) (self : App.t)
    (pre post : list GerritServer.t) (bad : GerritServer.t) (e : exn)
    (results : list (list record)) :
  App.servers self = pre ++ bad :: post →
  answers q pre results →
  GerritServer.query bad q = Raise e →
  let x := App.query q self in
  result x = Raise e ∧
  App.reviews (final x) = concatenation pre results ∧
  trace x = (λ s, ServerQuery s q) <$> (pre ++ [bad]).
Proof.
  intros Hs Hpre Hbad x. subst x. rewrite query_unfold, Hs.
  rewrite for_each_app, run_bind, (query_loop_ok _ _ _ _ Hpre). simpl.
  rewrite run_bind, (query_body_fails _ _ _ _ Hbad).
  unfold result, final, trace. simpl. by rewrite fmap_app.
Qed.

Lemma query_failure_propagates_witness :
  let x := App.query "status:open"
             (Examples.app_of
                [Examples.srv_A; Examples.srv_down; Examples.srv_B] []) in
  result x = Raise (OtherError "connection refused") ∧
  App.reviews (final x) = stamped Examples.srv_A Examples.records_A ∧
  trace x = [ServerQuery Examples.srv_A "status:open";
             ServerQuery Examples.srv_down "status:open"].
Proof.
  apply (query_failure_propagates "status:open" _ [Examples.srv_A]
           [Examples.srv_B] Examples.srv_down _ [Examples.records_A]).
  - reflexivity.
  - repeat constructor.
  - reflexivity.
Defined.

(** C1 as stated fails: with a failing endpoint before a working one, the
    aggregation raises and the items of the working endpoint are not in the
    collection. *)
Lemma query_partial_failure_counterexample :
  let self := Examples.app_of [Examples.srv_down; Examples.srv_A] [] in
  let x := App.query "status:open" self in
  GerritServer.query Examples.srv_down "status:open"
    = Raise (OtherError "connection refused") ∧
  GerritServer.query Examples.srv_A "status:open" = Ret Examples.records_A ∧
  result x = Raise (OtherError "connection refused") ∧
  App.reviews (final x) = [] ∧
  ¬ (result x = Ret tt ∧
     App.reviews (final x) = stamped Examples.srv_A Examples.records_A).
Proof.
  split_and!; try reflexivity. intros [H _]. discriminate H.
Qed.

(** ** [Config] *)

(** [Config()] yields the mapping of the file; a [YAMLError] is logged and
    becomes [sys.exit(2)]; any other exception of the load propagates. *)
Lemma config_new_bind {S B} w (k : Config → M S B) (s : S) :
  (Config.new w ≫= k) s
  = match load_config w with
    | Ret c => k c s
    | Raise e =>
        if is_YAMLError e then (Raise (SystemExit 2), s, [LogError e])
        else (Raise e, s, [])
    end.
Proof.
  rewrite run_bind. unfold Config.new, Config.load_config, try_except, call.
  destruct (load_config w) as [c|e]; simpl.
  - by destruct (k c s) as [[r s2] t2].
  - by destruct (is_YAMLError e).
Qed.

(** ** [App.__init__] *)

Lemma init_unfold w server user s :
  App.__init__ w server user s
  = (c ← Config.new w;
     modify (App.set_cfg c) ;;
     modify (App.set_servers []) ;;
     modify (App.set_user user) ;;
     selected ← select_entries w c server;
     for_each selected (init_body w) ;;
     init_finish) s.
Proof. reflexivity. Qed.

Lemma init_finish_run (s : App.t) :
  init_finish s
  = match App.servers s with
    | [] => (Raise (SystemExit 1), s, [])
    | _ :: _ =>
        (Ret tt, App.set_reviews [] s,
         [TermPrint (App.header (App.set_reviews [] s))])
    end.
Proof. unfold init_finish. run. by destruct (App.servers s). Qed.

(** [select_entries] reads the configuration only: it returns all entries of
    ["servers"], or one of them, or raises. *)
Lemma select_entries_run w c server s :
  (∃ e, select_entries w c server s = (Raise e, s, [])) ∨
  (∃ sel l, select_entries w c server s = (Ret sel, s, []) ∧
     c !! "servers" = Some l ∧ (∀ srv, srv ∈ sel → srv ∈ l) ∧
     (server = None → sel = l)).
Proof.
  unfold select_entries, getitem.
  destruct (c !! "servers") as [l|] eqn:Hl.
  - destruct server as [i|].
    + run. destruct (int_of_string w i) as [z|]; run; [|left; eauto].
      unfold list_getitem. destruct (py_index l z) as [srv|] eqn:Hz; run;
        [|left; eauto].
      right. exists [srv], l. split_and!; [done|done| |done].
      intros srv' ->%list_elem_of_singleton. unfold py_index in Hz.
      destruct (_ <? 0) in Hz; [done|]. by apply list_elem_of_lookup_2 in Hz.
    + right. exists l, l. by split_and!.
  - destruct server; left; eauto.
Qed.

(** One turn of the loop of [__init__], case by case. *)
Lemma init_body_run w srv s :
  init_body w srv s
  = match srv !! "url" with
    | None => (Raise (KeyError "url"), s, [])
    | Some url =>
        match srv !! "name" with
        | None => (Raise (KeyError "name"), s, [])
        | Some name =>
            match new_server w url name with
            | Ret g =>
                (Ret tt, App.set_servers (App.servers s ++ [g]) s,
                 [NewGerritServer url name])
            | Raise e =>
                if is_SystemError e
                then (Ret tt, s, [NewGerritServer url name; LogError e])
                else (Raise e, s, [NewGerritServer url name])
            end
        end
    end.
Proof.
  unfold init_body, try_except, getitem.
  destruct (srv !! "url") as [url|]; [|done].
  destruct (srv !! "name") as [name|]; run; [|done].
  destruct (new_server w url name) as [g|e]; [done|]. simpl.
  by destruct (is_SystemError e).
Qed.

(** [App(server=, user=)], step by step. *)
Lemma new_steps w server user :
  App.new w server user
  = match load_config w with
    | Raise e =>
        if is_YAMLError e then (Raise (SystemExit 2), App.blank, [LogError e])
        else (Raise e, App.blank, [])
    | Ret c =>
        match select_entries w c server
                (App.set_user user (App.set_servers [] (App.set_cfg c App.blank)))
        with
        | (Raise e, s1, t1) => (Raise e, s1, t1)
        | (Ret sel, s1, t1) =>
            match for_each sel (init_body w) s1 with
            | (Raise e, s2, t2) => (Raise e, s2, t1 ++ t2)
            | (Ret _, s2, t2) =>
                match init_finish s2 with
                | (r, s3, t3) => (r, s3, t1 ++ t2 ++ t3)
                end
            end
        end
    end.
Proof.
  unfold App.new. rewrite init_unfold, config_new_bind.
  destruct (load_config w) as [c|e]; [|done]. run. rewrite run_bind.
  destruct (select_entries _ _ _ _) as [[[sel|e] s1] t1]; [|done].
  rewrite run_bind.
  destruct (for_each _ _ _) as [[[[]|e] s2] t2]; [|done].
  by destruct (init_finish s2) as [[r s3] t3].
Qed.

Lemma init_body_ok w srv url name g s :
  srv !! "url" = Some url → srv !! "name" = Some name →
  new_server w url name = Ret g →
  init_body w srv s
  = (Ret tt, App.set_servers (App.servers s ++ [g]) s,
     [NewGerritServer url name]).
Proof.
  intros Hu Hn Hg.
  unfold init_body, try_except, getitem. rewrite Hu, Hn. run. by rewrite Hg.
Qed.

Lemma init_body_caught w srv url name msg s :
  srv !! "url" = Some url → srv !! "name" = Some name →
  new_server w url name = Raise (SystemError msg) →
  init_body w srv s
  = (Ret tt, s, [NewGerritServer url name; LogError (SystemError msg)]).
Proof.
  intros Hu Hn Hg.
  unfold init_body, try_except, getitem. rewrite Hu, Hn. run. by rewrite Hg.
Qed.

Lemma set_servers_id (self : App.t) :
  App.set_servers (App.servers self) self = self.
Proof. by destruct self. Qed.

(** The loop of [__init__] when every entry either yields a server or is
    rejected with [SystemError]: every entry is attempted, every rejection
    is logged, the servers that could be built are kept, in order. *)
Lemma init_loop_ok w l s :
  Forall (λ srv, (∃ g, constructs w srv g) ∨ rejected w srv) l →
  ∃ t,
    for_each l (init_body w) s
    = (Ret tt, App.set_servers (App.servers s ++ constructed w l) s, t) ∧
    constructor_calls t = attempts l ∧
    errors_logged t = rejections w l.
Proof.
  intros H. revert s. induction H as [|srv l Hsrv _ IH]; intros s.
  - exists []. simpl. by rewrite app_nil_r, set_servers_id.
  - destruct Hsrv as [(g & url & name & Hu & Hn & Hg)
                     | (url & name & msg & Hu & Hn & Hg)].
    + destruct (IH (App.set_servers (App.servers s ++ [g]) s))
        as (t & Ht & Hc & He).
      exists (NewGerritServer url name :: t). simpl.
      rewrite run_bind, (init_body_ok _ _ _ _ _ _ Hu Hn Hg), Ht. simpl.
      rewrite Hc, He. unfold constructed, attempts, rejections. simpl.
      rewrite Hu, Hn. simpl. rewrite Hg. by rewrite <- app_assoc.
    + destruct (IH s) as (t & Ht & Hc & He).
      exists (NewGerritServer url name :: LogError (SystemError msg) :: t).
      simpl. rewrite run_bind, (init_body_caught _ _ _ _ _ _ Hu Hn Hg), Ht.
      simpl. rewrite Hc, He. unfold constructed, attempts, rejections. simpl.
      rewrite Hu, Hn. simpl. by rewrite Hg.
Qed.

Lemma attempts_cons srv l url name :
  srv !! "url" = Some url → srv !! "name" = Some name →
  attempts (srv :: l) = NewGerritServer url name :: attempts l.
Proof. intros Hu Hn. unfold attempts. simpl. by rewrite Hu, Hn. Qed.

Lemma attempts_length w l :
  Forall (λ srv, (∃ g, constructs w srv g) ∨ rejected w srv) l →
  length (attempts l) = length l.
Proof.
  induction 1 as [|srv l Hsrv _ IH]; [done|].
  destruct Hsrv as [(g & url & name & Hu & Hn & Hg)
                   | (url & name & msg & Hu & Hn & Hg)];
    rewrite (attempts_cons _ _ _ _ Hu Hn); simpl; by rewrite IH.
Qed.

Lemma constructed_elem w l srv g :
  srv ∈ l → constructs w srv g → g ∈ constructed w l.
Proof.
  intros Hin (url & name & Hu & Hn & Hg). unfold constructed.
  apply list_elem_of_omap. exists srv. split; [done|].
  rewrite Hu, Hn. simpl. by rewrite Hg.
Qed.

Lemma rejections_elem w l srv url name msg :
  srv ∈ l → srv !! "url" = Some url → srv !! "name" = Some name →
  new_server w url name = Raise (SystemError msg) →
  SystemError msg ∈ rejections w l.
Proof.
  intros Hin Hu Hn Hg. unfold rejections.
  apply list_elem_of_omap. exists srv. split; [done|].
  rewrite Hu, Hn. simpl. by rewrite Hg.
Qed.

(** What [App(server=None, user=user)] does when the configuration loads and
    every entry either yields a server or is rejected with [SystemError]. *)
Lemma new_run w user cfg l :
  load_config w = Ret cfg → cfg !! "servers" = Some l →
  Forall (λ srv, (∃ g, constructs w srv g) ∨ rejected w srv) l →
  ∃ t,
    constructor_calls t = attempts l ∧
    errors_logged t = rejections w l ∧
    App.new w None user
    = match constructed w l with
      | [] =>
          (Raise (SystemExit 1),
           {| App.cfg := cfg; App.servers := []; App.user := user;
              App.reviews := [] |}, t)
      | _ :: _ =>
          let self := {| App.cfg := cfg; App.servers := constructed w l;
                         App.user := user; App.reviews := [] |} in
          (Ret tt, self, t ++ [TermPrint (App.header self)])
      end.
Proof.
  intros Hload Hl Hall. unfold App.new. rewrite init_unfold.
  rewrite config_new_bind, Hload. run.
  unfold getitem at 1. rewrite Hl. run.
  destruct (init_loop_ok w l
              (App.set_user user
                 (App.set_servers [] (App.set_cfg cfg App.blank))) Hall)
    as (t & Ht & Hc & He).
  exists t. split; [done|]. split; [done|].
  rewrite run_bind, Ht, init_finish_run. simpl.
  destruct (constructed w l); simpl; [by rewrite app_nil_r | done].
Qed.

(** What [App(server=None, user=user)] does when an entry fails with an
    exception that is not a [SystemError], the entries before it yielding a
    server or being rejected. *)
Lemma new_abort w user cfg pre srv post e calls :
  load_config w = Ret cfg → cfg !! "servers" = Some (pre ++ srv :: post) →
  Forall (λ srv, (∃ g, constructs w srv g) ∨ rejected w srv) pre →
  aborts_with w srv e calls →
  let x := App.new w None user in
  result x = Raise e ∧
  constructor_calls (trace x) = attempts pre ++ calls ∧
  errors_logged (trace x) = rejections w pre ∧
  App.servers (final x) = constructed w pre.
Proof.
  intros Hload Hl Hpre Habort x.
  subst x. remember (App.new w None user) as y eqn:Hy.
  rewrite new_steps, Hload in Hy. unfold select_entries, getitem in Hy.
  rewrite Hl in Hy. simpl in Hy. rewrite for_each_app, run_bind in Hy.
  destruct (init_loop_ok w pre
              (App.set_user user (App.set_servers [] (App.set_cfg cfg App.blank)))
              Hpre) as (t & Ht & Hc & He).
  rewrite Ht in Hy. simpl in Hy. rewrite run_bind, init_body_run in Hy.
  unfold constructor_calls, errors_logged in *.
  destruct Habort as [(Hu & -> & ->)
                     | [(url & Hu & Hn & -> & ->)
                       | (url & name & Hu & Hn & Hg & Hsys & ->)]].
  - rewrite Hu in Hy. subst y. unfold result, final, trace. simpl.
    by rewrite !app_nil_r.
  - rewrite Hu, Hn in Hy. subst y. unfold result, final, trace. simpl.
    by rewrite !app_nil_r.
  - rewrite Hu, Hn, Hg, Hsys in Hy. subst y. unfold result, final, trace.
    simpl. rewrite List.filter_app, omap_app, Hc, He. simpl.
    by rewrite app_nil_r.
Qed.

(** C6, as the code has it.  A configuration entry that [GerritServer]
    rejects with [SystemError] is logged and does not abort the construction
    of the other endpoints: when every entry yields a server or is rejected,
    the constructor is called for every entry, in order, every rejection is
    logged with [LOG.error], in order, and the application keeps every
    server that could be built.  An entry that fails with any other
    exception aborts the construction: the exception leaves [__init__], and
    the entries after it are neither attempted nor retained. *)
Theorem construction_tolerates_SystemError (w : World) (user : string)
    (cfg : Config) (l : list (gmap string string)) :
  load_config w = Ret cfg → cfg !! "servers" = Some l →
  let x := App.new w None user in
  (Forall (λ srv, (∃ g, constructs w srv g) ∨ rejected w srv) l →
   constructor_calls (trace x) = attempts l ∧
   length (attempts l) = length l ∧
   errors_logged (trace x) = rejections w l ∧
   (∀ srv url name msg,
      srv ∈ l → srv !! "url" = Some url → srv !! "name" = Some name →
      new_server w url name = Raise (SystemError msg) →
      LogError (SystemError msg) ∈ trace x) ∧
   App.servers (final x) = constructed w l ∧
   (∀ srv g, srv ∈ l → constructs w srv g → g ∈ App.servers (final x)) ∧
   (constructed w l ≠ [] → result x = Ret tt)) ∧
  (∀ pre srv post e calls,
     l = pre ++ srv :: post →
     Forall (λ srv, (∃ g, constructs w srv g) ∨ rejected w srv) pre →
     aborts_with w srv e calls →
     result x = Raise e ∧
     constructor_calls (trace x) = attempts pre ++ calls ∧
     errors_logged (trace x) = rejections w pre ∧
     App.servers (final x) = constructed w pre).
Proof.
  intros Hload Hl x. split.
  - intros Hall. subst x.
    destruct (new_run w user cfg l Hload Hl Hall) as (t & Hc & He & ->).
    assert (Hsrv :
      App.servers (final
        match constructed w l with
        | [] =>
            (Raise (SystemExit 1),
             {| App.cfg := cfg; App.servers := []; App.user := user;
                App.reviews := [] |}, t)
        | _ :: _ =>
            let self := {| App.cfg := cfg; App.servers := constructed w l;
                           App.user := user; App.reviews := [] |} in
            (Ret tt, self, t ++ [TermPrint (App.header self)])
        end) = constructed w l).
    { by destruct (constructed w l). }
    assert (Hlog :
      errors_logged (trace
        match constructed w l with
        | [] =>
            (Raise (SystemExit 1),
             {| App.cfg := cfg; App.servers := []; App.user := user;
                App.reviews := [] |}, t)
        | _ :: _ =>
            let self := {| App.cfg := cfg; App.servers := constructed w l;
                           App.user := user; App.reviews := [] |} in
            (Ret tt, self, t ++ [TermPrint (App.header self)])
        end) = rejections w l).
    { destruct (constructed w l); unfold trace; simpl; [done|].
      unfold errors_logged in *. rewrite omap_app. simpl.
      by rewrite app_nil_r. }
    split_and!.
    + destruct (constructed w l); unfold trace; simpl; [done|].
      unfold constructor_calls in *. rewrite List.filter_app. simpl.
      by rewrite app_nil_r.
    + by apply attempts_length with w.
    + done.
    + intros srv url name msg Hin Hu Hn Hg.
      pose proof (rejections_elem w l srv url name msg Hin Hu Hn Hg) as Hel.
      rewrite <- Hlog in Hel. unfold errors_logged in Hel.
      apply list_elem_of_omap in Hel as (ev & Hev & Heq).
      destruct ev; try discriminate Heq. by simplify_eq.
    + done.
    + intros srv g Hin Hg. rewrite Hsrv. by apply constructed_elem with srv.
    + by destruct (constructed w l).
  - intros pre srv post e calls -> Hpre Habort.
    by apply (new_abort w user cfg pre srv post e calls).
Qed.

Lemma construction_tolerates_SystemError_witness :
  let w := Examples.world
             [Examples.entry_A; Examples.entry_rejected; Examples.entry_B] in
  let x := App.new w None "self" in
  rejected w Examples.entry_rejected ∧
  App.servers (final x) = [Examples.srv_A; Examples.srv_B] ∧
  errors_logged (trace x) = [SystemError "no credentials"].
Proof.
  assert (Hall :
    Forall (λ srv,
              (∃ g, constructs
                      (Examples.world
                         [Examples.entry_A; Examples.entry_rejected;
                          Examples.entry_B]) srv g)
              ∨ rejected
                  (Examples.world
                     [Examples.entry_A; Examples.entry_rejected;
                      Examples.entry_B]) srv)
      [Examples.entry_A; Examples.entry_rejected; Examples.entry_B]).
  { apply Forall_cons_2; [|apply Forall_cons_2; [|apply Forall_cons_2]].
    - left. exists Examples.srv_A, "https://a.example/", "A". by split_and!.
    - right. exists "https://x.example/", "X", "no credentials".
      by split_and!.
    - left. exists Examples.srv_B, "https://b.example/", "B". by split_and!.
    - apply Forall_nil_2. }
  split.
  - exists "https://x.example/", "X", "no credentials". by split_and!.
  - destruct (construction_tolerates_SystemError
                (Examples.world
                   [Examples.entry_A; Examples.entry_rejected; Examples.entry_B])
                "self"
                (Examples.config
                   [Examples.entry_A; Examples.entry_rejected; Examples.entry_B])
                [Examples.entry_A; Examples.entry_rejected; Examples.entry_B]
                eq_refl eq_refl) as [Hok _].
    destruct (Hok Hall) as (_ & _ & Hlog & _ & Hsrv & _).
    split; [exact Hsrv | exact Hlog].
Defined.

(** C6 as stated fails: an entry of the configuration without the key
    ["url"] raises [KeyError], which [except SystemError] does not catch; the
    entry after it, which would yield a server, is never attempted. *)
Lemma construction_aborts_counterexample :
  let w := Examples.world [Examples.entry_no_url; Examples.entry_B] in
  let x := App.new w None "self" in
  constructs w Examples.entry_B Examples.srv_B ∧
  result x = Raise (KeyError "url") ∧
  constructor_calls (trace x) = [] ∧
  App.servers (final x) = [] ∧
  ¬ (NewGerritServer "https://b.example/" "B" ∈ trace x ∧
     Examples.srv_B ∈ App.servers (final x)).
Proof.
  split_and!.
  - exists "https://b.example/", "B". by split_and!.
  - reflexivity.
  - reflexivity.
  - reflexivity.
  - intros [H _]. by apply elem_of_nil in H.
Qed.

(** ** [sorted] *)

Section SortedFacts.
Context {A : Type} (lt : A → A → bool).

Hypothesis lt_asym : ∀ x y, lt x y = true → lt y x = false.
Hypothesis le_trans : ∀ x y z, not_after lt x y → not_after lt y z →
                               not_after lt x z.

Lemma insert_sorted_perm (x : A) (l : list A) : insert_sorted lt x l ≡ₚ x :: l.
Proof.
  induction l as [|y l IH]; simpl; [done|].
  destruct (lt y x); [|done]. rewrite IH. apply Permutation_swap.
Qed.

Lemma sorted_perm (l : list A) : sorted lt l ≡ₚ l.
Proof.
  induction l as [|x l IH]; simpl; [done|].
  by rewrite insert_sorted_perm, IH.
Qed.


Lemma insert_sorted_ordered (x : A) (l : list A) :
  StronglySorted (not_after lt) l → StronglySorted (not_after lt) (insert_sorted lt x l).
Proof.
  induction 1 as [|y l Hl IH Hy]; simpl.
  - repeat constructor.
  - destruct (lt y x) eqn:Hyx.
    + constructor; [done|]. rewrite insert_sorted_perm.
      constructor; [by apply lt_asym | done].
    + constructor; [by constructor|].
      constructor; [done|].
      eapply Forall_impl; [exact Hy|]. intros z Hz. by apply le_trans with y.
Qed.

Lemma sorted_ordered (l : list A) : StronglySorted (not_after lt) (sorted lt l).
Proof.
  induction l as [|x l IH]; simpl; [constructor|].
  by apply insert_sorted_ordered.
Qed.

(** A list that is in order already is left as it is. *)
Lemma sorted_fixed (l : list A) : StronglySorted (not_after lt) l → sorted lt l = l.
Proof.
  induction 1 as [|x l Hl IH Hx]; simpl; [done|].
  rewrite IH. destruct Hx as [|y l Hy _]; simpl; [done|].
  unfold not_after in Hy. by rewrite Hy.
Qed.

Lemma sorted_idempotent (l : list A) : sorted lt (sorted lt l) = sorted lt l.
Proof. apply sorted_fixed, sorted_ordered. Qed.
End SortedFacts.

(** ** The order of the report *)

Lemma StronglySorted_weaken {A} (R R' : A → A → Prop) (l : list A) :
  (∀ x y, R x y → R' x y) → StronglySorted R l → StronglySorted R' l.
Proof.
  intros HR. induction 1 as [|x l _ IH Hx]; constructor; [done|].
  eapply Forall_impl; [exact Hx | apply HR].
Qed.


Lemma lt_false_order w a b :
  ReviewOrder.lt w b a = false ↔ report_order w a b.
Proof.
  unfold ReviewOrder.lt, report_order. simpl.
  repeat match goal with
  | |- context [?x <? ?y] => destruct (Z.ltb_spec x y)
  | |- context [?x =? ?y] => destruct (Z.eqb_spec x y)
  end; simpl; split; intros; try done; try lia.
Qed.

Lemma lt_asym w a b :
  ReviewOrder.lt w a b = true → ReviewOrder.lt w b a = false.
Proof.
  unfold ReviewOrder.lt. simpl.
  repeat match goal with
  | |- context [?x <? ?y] => destruct (Z.ltb_spec x y)
  | |- context [?x =? ?y] => destruct (Z.eqb_spec x y)
  end; simpl; intros; try done; try lia.
Qed.

Lemma order_trans w a b c :
  report_order w a b → report_order w b c → report_order w a c.
Proof. unfold report_order. simpl. lia. Qed.

Lemma sorted_report_order w (l : list Review.t) :
  StronglySorted (report_order w) (sorted (ReviewOrder.lt w) l).
Proof.
  eapply StronglySorted_weaken; [|apply (sorted_ordered (ReviewOrder.lt w))].
  - intros a b H. by apply lt_false_order.
  - apply lt_asym.
  - intros a b c ?%lt_false_order ?%lt_false_order.
    apply lt_false_order. by apply order_trans with b.
Qed.

Lemma sorted_reviews_idempotent w (l : list Review.t) :
  sorted (ReviewOrder.lt w) (sorted (ReviewOrder.lt w) l)
  = sorted (ReviewOrder.lt w) l.
Proof.
  apply sorted_idempotent.
  - apply lt_asym.
  - intros a b c ?%lt_false_order ?%lt_false_order.
    apply lt_false_order. by apply order_trans with b.
Qed.

(** ** [App.report] *)

(** The loop of [report] adds one row per review, in order, and counts them. *)
Lemma report_loop w (l : list Review.t) (tb : Table.t) (cnt : Z) (s : App.t) :
  for_fold l (tb, cnt) (report_body w) s
  = (Ret ({| Table.title := Table.title tb; Table.columns := Table.columns tb;
             Table.rows := Table.rows tb ++ (as_columns w <$> l) |},
          cnt + Z.of_nat (length l)),
     s, (λ r, LogDebug (Review.data r)) <$> l).
Proof.
  revert tb cnt. induction l as [|r l IH]; intros tb cnt; simpl.
  - rewrite app_nil_r, Z.add_0_r. by destruct tb.
  - rewrite run_bind. simpl. rewrite IH. simpl.
    rewrite <- app_assoc. simpl.
    replace (cnt + 1 + Z.of_nat (length l)) with (cnt + Z.of_nat (S (length l)))
      by lia.
    done.
Qed.

(** [report] runs the query when one is given, prints the table of the
    sorted reviews and the summary line, and leaves the object as the query
    left it. *)
Lemma report_run w qry title s :
  App.report w qry title s
  = match (if truthy qry then App.query (default "" qry) s else (Ret tt, s, []))
    with
    | (Ret _, s1, t1) =>
        let l := sorted (ReviewOrder.lt w) (App.reviews s1) in
        (Ret tt, s1,
         t1 ++ ((λ r, LogDebug (Review.data r)) <$> l)
            ++ [TermPrintTable
                  {| Table.title := title;
                     Table.columns :=
                       ["Review"; "Age"; "Project/Subject"; "Meta"; "Score"];
                     Table.rows := as_columns w <$> l |};
                TermPrint (summary_line (Z.of_nat (length l)) qry)])
    | (Raise e, s1, t1) => (Raise e, s1, t1)
    end.
Proof.
  unfold App.report. rewrite run_bind.
  assert (Hq : (if truthy qry then App.query (default "" qry) else mret tt) s
               = (if truthy qry then App.query (default "" qry) s
                  else (Ret tt, s, []))) by (by destruct (truthy qry)).
  rewrite Hq. clear Hq.
  destruct (if truthy qry then _ else _) as [[[[]|e] s1] t1]; [|done].
  rewrite run_get_bind, run_bind.
  match goal with
  | |- context [for_fold ?l ?a ?f s1] =>
      change (for_fold l a f s1) with (for_fold l a (report_body w) s1)
  end.
  rewrite report_loop. simpl. done.
Qed.

Lemma query_hoare (I : App.t → Prop) (P : event → Prop) (q : string) :
  (∀ s l, I s → I (App.set_reviews l s)) →
  (∀ srv, P (ServerQuery srv q)) →
  hoare I P (λ _, True) (App.query q).
Proof.
  intros HI HP. unfold App.query.
  apply hoare_bind with (Q := λ _, True); [by apply hoare_modify; auto|].
  intros _ _. apply hoare_bind with (Q := λ _, True); [by apply hoare_get|].
  intros self _. apply hoare_for_each. intros item _.
  apply hoare_bind with (Q := λ _, True); [by apply hoare_emit|].
  intros _ _. apply hoare_bind with (Q := λ _, True); [by apply hoare_call|].
  intros records _. apply hoare_for_each. intros record _.
  apply hoare_modify; auto.
Qed.

Lemma report_hoare (I : App.t → Prop) (P : event → Prop) w qry title :
  (∀ s l, I s → I (App.set_reviews l s)) →
  (∀ srv q, qry = Some q → P (ServerQuery srv q)) →
  (∀ d, P (LogDebug d)) → (∀ tb, P (TermPrintTable tb)) →
  (∀ text, P (TermPrint text)) →
  hoare I P (λ _, True) (App.report w qry title).
Proof.
  intros HI Hq Hd Ht Hp. unfold App.report.
  apply hoare_bind with (Q := λ _, True).
  { destruct qry as [q|]; simpl; [|by apply hoare_ret].
    destruct (negb _); [|by apply hoare_ret]. apply query_hoare; auto. }
  intros _ _. apply hoare_bind with (Q := λ _, True); [by apply hoare_get|].
  intros self _. apply hoare_bind with (Q := λ _, True).
  { apply hoare_for_fold. intros [tb cnt] review.
    apply hoare_bind with (Q := λ _, True); [by apply hoare_emit|].
    intros _ _. by apply hoare_ret. }
  intros [tb cnt] _.
  apply hoare_bind with (Q := λ _, True); [by apply hoare_emit|].
  intros _ _. by apply hoare_emit.
Qed.

Lemma queries_print_nothing (t : list event) :
  Forall (λ ev, is_query ev = true) t →
  tables_printed t = [] ∧ lines_printed t = [].
Proof.
  induction 1 as [|ev t Hev _ [IH1 IH2]]; [done|].
  destruct ev; try discriminate Hev. done.
Qed.

Lemma logs_print_nothing (l : list Review.t) :
  tables_printed ((λ r, LogDebug (Review.data r)) <$> l) = [] ∧
  lines_printed ((λ r, LogDebug (Review.data r)) <$> l) = [].
Proof. induction l as [|r l [IH1 IH2]]; done. Qed.

Lemma query_prints_nothing q s :
  tables_printed (trace (App.query q s)) = [] ∧
  lines_printed (trace (App.query q s)) = [].
Proof.
  apply queries_print_nothing.
  by apply (query_hoare (λ _, True) (λ ev, is_query ev = true) q).
Qed.

Lemma summary_line_summary (n : nat) (qry : option string) :
  summary_line (Z.of_nat n) qry = summary n qry.
Proof.
  unfold summary_line, summary. destruct qry as [q|]; simpl; [|done].
  by destruct (String.eqb q "").
Qed.

(** What [report] prints, when it returns. *)
Lemma report_prints w qry title s :
  let x := App.report w qry title s in
  let l := sorted (ReviewOrder.lt w) (App.reviews (final x)) in
  result x = Ret tt →
  tables_printed (trace x)
  = [{| Table.title := title;
        Table.columns := ["Review"; "Age"; "Project/Subject"; "Meta"; "Score"];
        Table.rows := as_columns w <$> l |}] ∧
  lines_printed (trace x) = [summary (length l) qry] ∧
  last (trace x) = Some (TermPrint (summary (length l) qry)).
Proof.
  intros x l. subst x l. rewrite report_run.
  assert (Hq : tables_printed
                 (trace (if truthy qry then App.query (default "" qry) s
                         else (Ret tt, s, []))) = [] ∧
               lines_printed
                 (trace (if truthy qry then App.query (default "" qry) s
                         else (Ret tt, s, []))) = []).
  { destruct (truthy qry); [apply query_prints_nothing | done]. }
  destruct (if truthy qry then _ else _) as [[[[]|e] s1] t1]; [|done].
  intros _. unfold result, final, trace in *. simpl in *.
  destruct Hq as [Hq1 Hq2].
  destruct (logs_print_nothing (sorted (ReviewOrder.lt w) (App.reviews s1)))
    as [Hl1 Hl2].
  unfold tables_printed, lines_printed in *.
  rewrite !omap_app, Hq1, Hq2, Hl1, Hl2. simpl.
  rewrite summary_line_summary. split_and!; [done|done|].
  match goal with
  | |- last (?t ++ ?k ++ [?a; ?b]) = _ =>
      change (t ++ k ++ [a; b]) with (t ++ k ++ [a] ++ [b])
  end.
  rewrite !app_assoc. apply last_snoc.
Qed.

Lemma report_final w qry title s :
  final (App.report w qry title s)
  = if truthy qry then final (App.query (default "" qry) s) else s.
Proof.
  rewrite report_run. destruct (truthy qry); [|done].
  by destruct (App.query _ s) as [[[[]|e] s1] t1].
Qed.


(** C7.  When [report] returns, the table it prints has one row per review
    of the collection, in the order of the report: danger level descending,
    then age descending, then identifier ascending (the comparison of
    reviews is [ReviewOrder.lt], modelled from the spec).  The order is a
    function of the collection: sorting the sorted sequence again gives the
    same sequence, and so does sorting any rearrangement of a collection in
    which no two reviews tie on danger, age and identifier. *)
Theorem report_in_order (w : World) (qry : option string) (title : string)
    (self : App.t) :
  let x := App.report w qry title self in
  let l := sorted (ReviewOrder.lt w) (App.reviews (final x)) in
  result x = Ret tt →
  Table.rows <$> tables_printed (trace x) = [as_columns w <$> l] ∧
  l ≡ₚ App.reviews (final x) ∧
  StronglySorted (report_order w) l ∧
  sorted (ReviewOrder.lt w) l = l ∧
  (∀ l',
     l' ≡ₚ App.reviews (final x) →
     (∀ a b, a ∈ l → b ∈ l → report_order w a b → report_order w b a → a = b) →
     sorted (ReviewOrder.lt w) l' = l).
Proof.
  intros x l Hret. destruct (report_prints w qry title self Hret) as (Ht & _ & _).
  fold x in Ht. rewrite Ht. subst l. split_and!.
  - done.
  - apply sorted_perm.
  - apply sorted_report_order.
  - apply sorted_reviews_idempotent.
  - intros l' Hperm Hanti.
    apply (StronglySorted_unique_strong (report_order w)).
    + intros a b Ha Hb. apply Hanti; [|done].
      rewrite sorted_perm in Ha. rewrite Hperm in Ha. by rewrite sorted_perm.
    + apply sorted_report_order.
    + apply sorted_report_order.
    + by rewrite !sorted_perm.
Qed.

Lemma report_in_order_witness :
  let w := Examples.world [Examples.entry_A; Examples.entry_B] in
  let x := App.report w (Some "status:open owner:self") "Own reviews"
             (Examples.app_of [Examples.srv_A; Examples.srv_B] []) in
  result x = Ret tt ∧
  Table.rows <$> tables_printed (trace x)
  = [[["103"; "120"; "gri/fix"; ""; "-2"];
      ["102"; "95"; "gri/fix"; ""; "-1"];
      ["201"; "200"; "gri/fix"; "wip"; "-2"];
      ["101"; "5"; "gri/fix"; ""; "1"]]].
Proof.
  split.
  - reflexivity.
  - apply (report_in_order
             (Examples.world [Examples.entry_A; Examples.entry_B])
             (Some "status:open owner:self") "Own reviews"
             (Examples.app_of [Examples.srv_A; Examples.srv_B] [])).
    reflexivity.
Defined.




(** C9, as the code has it.  [report] changes the stored collection only
    through the query it runs first when it is given one: without a query the
    object is left as it was, and with a query the stored collection is the
    result of that query, in the order of aggregation.  Sorting works on a
    copy. *)
Theorem report_keeps_collection (w : World) (qry : option string)
    (title : string) (self : App.t) :
  let x := App.report w qry title self in
  final x
  = (if truthy qry then final (App.query (default "" qry) self) else self) ∧
  (∀ results,
     truthy qry = true →
     answers (default "" qry) (App.servers self) results →
     App.reviews (final x) = concatenation (App.servers self) results).
Proof.
  intros x. subst x. rewrite report_final. split; [done|].
  intros results -> Hres. by rewrite (query_ok _ _ _ Hres).
Qed.

(** C9 as stated fails: [report] called with a query replaces the stored
    collection by the result of the query. *)
Lemma report_replaces_collection_counterexample :
  let w := Examples.world [Examples.entry_B] in
  let self := Examples.app_of [Examples.srv_B] [] in
  let x := App.report w (Some "status:open owner:self") "Own reviews" self in
  result x = Ret tt ∧
  App.reviews self = [] ∧
  App.reviews (final x) = stamped Examples.srv_B Examples.records_B ∧
  App.reviews (final x) ≠ App.reviews self.
Proof. split_and!; try reflexivity. discriminate. Qed.

(** ** Invariants of [App.__init__] *)

Section InitInvariant.
Context (w : World) (c : Config) (I : App.t → Prop) (P : event → Prop).

Hypothesis I_append : ∀ s g l srv,
  I s → c !! "servers" = Some l → srv ∈ l → constructs w srv g →
  I (App.set_servers (App.servers s ++ [g]) s).
Hypothesis I_reviews : ∀ s l, I s → I (App.set_reviews l s).
Hypothesis P_new : ∀ url name, P (NewGerritServer url name).
Hypothesis P_error : ∀ e, P (LogError e).
Hypothesis P_print : ∀ text, P (TermPrint text).

Lemma select_entries_hoare server :
  hoare I P (λ sel, ∃ l, c !! "servers" = Some l ∧ ∀ srv, srv ∈ sel → srv ∈ l)
    (select_entries w c server).
Proof.
  intros s Hs.
  destruct (select_entries_run w c server s)
    as [[e ->] | (sel & l & -> & Hl & Hsub & _)].
  - split_and!; [done | constructor | done].
  - split_and!; [done | constructor |]. intros a [= <-]. eauto.
Qed.

Lemma init_body_hoare l srv :
  c !! "servers" = Some l → srv ∈ l →
  hoare I P (λ _, True) (init_body w srv).
Proof.
  intros Hl Hsrv. unfold init_body. apply hoare_try.
  - apply hoare_bind with (Q := λ url, srv !! "url" = Some url);
      [by apply hoare_getitem|].
    intros url Hu.
    apply hoare_bind with (Q := λ name, srv !! "name" = Some name);
      [by apply hoare_getitem|].
    intros name Hn.
    apply hoare_bind with (Q := λ _, True); [by apply hoare_emit|].
    intros _ _.
    apply hoare_bind with (Q := λ g, new_server w url name = Ret g);
      [by apply hoare_call|].
    intros g Hg. apply hoare_modify; [|done].
    intros s Hs. apply I_append with l srv; [done..|].
    by exists url, name.
  - intros e. by apply hoare_emit.
Qed.

Lemma init_finish_hoare : hoare I P (λ _, True) init_finish.
Proof.
  unfold init_finish.
  apply hoare_bind with (Q := λ _, True); [by apply hoare_get|].
  intros self _. destruct (App.servers self); [apply hoare_raise|].
  apply hoare_bind with (Q := λ _, True); [by apply hoare_modify; auto|].
  intros _ _. apply hoare_bind with (Q := λ _, True); [by apply hoare_get|].
  intros self' _. by apply hoare_emit.
Qed.

Lemma init_tail_hoare server :
  hoare I P (λ _, True)
    (selected ← select_entries w c server;
     for_each selected (init_body w) ;;
     init_finish).
Proof.
  eapply hoare_bind; [apply select_entries_hoare|].
  intros sel (l & Hl & Hsub).
  apply hoare_bind with (Q := λ _, True).
  - apply hoare_for_each. intros srv Hsrv.
    apply init_body_hoare with l; [done | by apply Hsub].
  - intros _ _. apply init_finish_hoare.
Qed.
End InitInvariant.

(** An invariant [I] of the construction that holds once the first three
    assignments of [__init__] are done holds of the constructed object, and
    the events of the construction are constructor calls, logged errors and
    the header line. *)
Lemma new_hoare w server user (I : App.t → Prop) (P : event → Prop) :
  (∀ c s g l srv,
     load_config w = Ret c → I s → c !! "servers" = Some l → srv ∈ l →
     constructs w srv g → I (App.set_servers (App.servers s ++ [g]) s)) →
  (∀ s l, I s → I (App.set_reviews l s)) →
  (∀ c, load_config w = Ret c →
        I {| App.cfg := c; App.servers := []; App.user := user;
             App.reviews := [] |}) →
  (∀ url name, P (NewGerritServer url name)) →
  (∀ e, P (LogError e)) →
  (∀ text, P (TermPrint text)) →
  let x := App.new w server user in
  Forall P (trace x) ∧ (result x = Ret tt → I (final x)).
Proof.
  intros Happ Hrev Hinit Pn Pe Pp x. subst x. unfold App.new.
  rewrite init_unfold, config_new_bind.
  destruct (load_config w) as [c|e] eqn:Hload;
    [|destruct (is_YAMLError e);
      (split; [repeat constructor; apply Pe
              | intros H; unfold result in H; simpl in H; discriminate H])].
  run.
  destruct (init_tail_hoare w c I P (λ s g l srv, Happ c s g l srv eq_refl)
              Hrev Pn Pe Pp server _ (Hinit c eq_refl)) as (HI & HP & _).
  by split.
Qed.

(** The check at the end of [__init__]: a constructed application has at
    least one server. *)
Lemma new_servers w server user :
  let x := App.new w server user in
  result x = Ret tt → App.servers (final x) ≠ [].
Proof.
  intros x. subst x. unfold App.new. rewrite init_unfold, config_new_bind.
  destruct (load_config w) as [c|e]; [|by destruct (is_YAMLError e)]. run.
  rewrite run_bind. destruct (select_entries _ _ _ _) as [[[sel|e] s1] t1]; [|done].
  rewrite run_bind. destruct (for_each _ _ _) as [[[[]|e] s2] t2]; [|done].
  rewrite init_finish_run.
  destruct (App.servers s2) eqn:Hs; unfold result, final; simpl;
    [done | by rewrite Hs].
Qed.

(** [__init__] stores the user it is given. *)
Lemma new_user w server user :
  let x := App.new w server user in
  result x = Ret tt → App.user (final x) = user.
Proof.
  intros x. subst x.
  by apply (new_hoare w server user (λ s, App.user s = user) (λ _, True)).
Qed.

(** When no entry of the configuration yields a server, [__init__] raises. *)
Lemma new_nothing_constructed w server user :
  (∀ c l srv g, load_config w = Ret c → c !! "servers" = Some l → srv ∈ l →
                ¬ constructs w srv g) →
  ∃ e, result (App.new w server user) = Raise e.
Proof.
  intros Hnone.
  destruct (new_hoare w server user (λ s, App.servers s = []) (λ _, True))
    as [_ Hempty]; try done.
  { intros c s g l srv Hc _ Hl Hsrv Hg. by destruct (Hnone c l srv g). }
  pose proof (new_servers w server user) as Hne. simpl in Hne.
  destruct (result (App.new w server user)) as [[]|e] eqn:Hr; [|by exists e].
  by destruct (Hne eq_refl); apply Hempty.
Qed.

Lemma constructed_rejected w l :
  Forall (rejected w) l → constructed w l = [].
Proof.
  induction 1 as [|srv l (url & name & msg & Hu & Hn & Hg) _ IH]; [done|].
  unfold constructed in *. simpl. rewrite Hu, Hn. simpl. by rewrite Hg.
Qed.

(** When every entry is rejected with [SystemError], [__init__] ends in
    [sys.exit(1)]. *)
Lemma new_all_rejected w user c l :
  load_config w = Ret c → c !! "servers" = Some l → Forall (rejected w) l →
  result (App.new w None user) = Raise (SystemExit 1).
Proof.
  intros Hc Hl Hall.
  destruct (new_run w user c l Hc Hl) as (t & _ & _ & ->).
  { eapply Forall_impl; [exact Hall|]. intros srv Hsrv. by right. }
  by rewrite (constructed_rejected _ _ Hall).
Qed.

(** ** The command line *)

Lemma append_assoc (a b c : string) : (a +:+ b) +:+ c = a +:+ b +:+ c.
Proof.
  induction a as [|x a IH]; [done|].
  change (String x ((a +:+ b) +:+ c) = String x (a +:+ b +:+ c)).
  by rewrite IH.
Qed.

Lemma merged_query (age : Z) (u : string) :
  (" status:merged -age:" +:+ pretty age +:+ "d") +:+ " owner:" +:+ u
  = query_of (CmdMerged age) u.
Proof. unfold query_of. by rewrite !append_assoc. Qed.

Lemma hoare_on_obj {A} (Ia : App.t → Prop) (Ic : Ctx.t → Prop)
    (P : event → Prop) (Q : A → Prop) (m : M App.t A) :
  (∀ ctx app, Ic ctx → Ctx.obj ctx = Some app → Ia app) →
  (∀ ctx app, Ic ctx → Ia app → Ic (Ctx.set_obj (Some app) ctx)) →
  hoare Ia P Q m → hoare Ic P Q (on_obj m).
Proof.
  intros Hget Hset Hm ctx Hctx. unfold on_obj.
  destruct (Ctx.obj ctx) as [app|] eqn:Hobj;
    [|split_and!; [done | constructor | done]].
  destruct (Hm app (Hget ctx app Hctx Hobj)) as (HI & HP & HQ).
  destruct (m app) as [[r app'] t]. unfold result, final, trace in *.
  simpl in *. split_and!; [by apply Hset | done | done].
Qed.

Lemma commands_run_given (cmds : list command) (c : command) :
  c ∈ cmds → c ∈ commands_run cmds.
Proof. destruct cmds; [by intros ?%elem_of_nil | done]. Qed.

Lemma commands_run_implicit (cmds : list command) :
  match cmds with [] => None | _ :: _ => Some "*" end = @None string →
  CmdOwned ∈ commands_run cmds.
Proof. destruct cmds; [intros _; left | done]. Qed.

Section MainInvariant.
Context (w : World) (p : params) (cmds : list command).
Context (Ia : App.t → Prop) (P : event → Prop).

Hypothesis Ia_reviews : ∀ s l, Ia s → Ia (App.set_reviews l s).
Hypothesis Ia_new :
  result (App.new w (server p) (embedded (user p))) = Ret tt →
  Ia (final (App.new w (server p) (embedded (user p)))).
Hypothesis P_query : ∀ c srv app,
  c ∈ commands_run cmds → Ia app →
  P (ServerQuery srv (query_of c (App.user app))).
Hypothesis P_other : ∀ ev, is_query ev = false → is_abandon ev = false → P ev.

Abbreviation Ic := (ctx_invariant p cmds Ia).

Lemma Ic_get ctx app : Ic ctx → Ctx.obj ctx = Some app → Ia app.
Proof. intros (_ & _ & H). apply H. Qed.

Lemma Ic_set ctx app : Ic ctx → Ia app → Ic (Ctx.set_obj (Some app) ctx).
Proof.
  intros (Hp & Hs & _) Happ. split_and!; [done..|].
  by intros app' [= <-].
Qed.

Lemma user_hoare :
  hoare Ic P (λ u, ∃ app, Ia app ∧ u = App.user app)
    (on_obj (self ← get; mret (App.user self))).
Proof.
  apply hoare_on_obj with Ia; [apply Ic_get | apply Ic_set |].
  apply hoare_bind with (Q := Ia); [by apply hoare_get|].
  intros self Hself. apply hoare_ret. eauto.
Qed.

Lemma report_on_obj_hoare c app title :
  c ∈ commands_run cmds → Ia app →
  hoare Ic P (λ _, True)
    (on_obj (App.report w (Some (query_of c (App.user app))) title)).
Proof.
  intros Hc Happ. apply hoare_on_obj with Ia; [apply Ic_get | apply Ic_set |].
  apply report_hoare; [done | | by intros; apply P_other..].
  intros srv q [= <-]. by apply P_query.
Qed.

Lemma invoke_hoare c :
  c ∈ commands_run cmds → hoare Ic P (λ _, True) (invoke w c).
Proof.
  intros Hc. destruct c as [| |age]; simpl.
  - unfold owned. eapply hoare_bind; [apply user_hoare|].
    intros u (app & Happ & ->). by apply (report_on_obj_hoare CmdOwned).
  - unfold incoming. eapply hoare_bind; [apply user_hoare|].
    intros u (app & Happ & ->). by apply (report_on_obj_hoare CmdIncoming).
  - unfold merged. eapply hoare_bind; [apply user_hoare|].
    intros u (app & Happ & ->). rewrite merged_query.
    by apply (report_on_obj_hoare (CmdMerged age)).
Qed.

Lemma new_app_hoare :
  hoare Ic P (λ _, True) (new_app w (server p) (embedded (user p))).
Proof.
  intros ctx Hctx. unfold new_app.
  destruct (new_hoare w (server p) (embedded (user p)) (λ _, True) P)
    as [HP _]; try done; try (by intros; apply P_other).
  destruct (App.new w (server p) (embedded (user p)))
    as [[[[]|e] app] t] eqn:Hnew; unfold result, final, trace in *;
    simpl in *; (split_and!; [|done|done]); [|done].
  apply Ic_set; [done|]. by apply Ia_new.
Qed.

Lemma cli_hoare : hoare Ic P (λ _, True) (cli w).
Proof.
  unfold cli. apply hoare_bind with (Q := Ic); [by apply hoare_get|].
  intros ctx (Hp & Hsub & _). rewrite Hp.
  apply hoare_bind with (Q := λ _, True); [apply hoare_emit; [by apply P_other | done]|].
  intros _ _.
  apply hoare_bind with (Q := λ _, True); [apply hoare_emit; [by apply P_other | done]|].
  intros _ _. apply hoare_bind with (Q := λ _, True).
  { destruct (debug p); [apply hoare_emit; [by apply P_other | done] | by apply hoare_ret]. }
  intros _ _. apply hoare_bind with (Q := λ _, True); [apply new_app_hoare|].
  intros _ _. apply hoare_bind with (Q := λ _, True).
  { destruct (Ctx.invoked_subcommand ctx) eqn:Hinv; [by apply hoare_ret|].
    apply hoare_bind with (Q := λ _, True);
      [apply hoare_emit; [by apply P_other | done]|].
    intros _ _. apply (invoke_hoare CmdOwned).
    apply commands_run_implicit. by rewrite <- Hsub. }
  intros _ _.
  destruct (truthy (output p)); [apply hoare_emit; [by apply P_other | done]|].
  by apply hoare_ret.
Qed.

Lemma main_hoare :
  Forall P (trace (main w p cmds)) ∧
  ∀ app, Ctx.obj (final (main w p cmds)) = Some app → Ia app.
Proof.
  assert (H : hoare Ic P (λ _, True) (cli w ;; for_each cmds (invoke w))).
  { apply hoare_bind with (Q := λ _, True); [apply cli_hoare|].
    intros _ _. apply hoare_for_each. intros c Hc. apply invoke_hoare.
    by apply commands_run_given. }
  destruct (H (initial_ctx p cmds)) as ((_ & _ & HI) & HP & _); [|done].
  by split_and!.
Qed.
End MainInvariant.

Lemma no_abandon_calls (t : list event) :
  Forall (λ ev, is_abandon ev = false) t → abandon_calls t = [].
Proof.
  induction 1 as [|ev t Hev _ IH]; [done|].
  unfold abandon_calls in *. simpl. by rewrite Hev.
Qed.

Lemma no_query_calls (t : list event) :
  Forall (λ ev, is_query ev = false) t → query_calls t = [].
Proof.
  induction 1 as [|ev t Hev _ IH]; [done|].
  unfold query_calls in *. simpl. by rewrite Hev.
Qed.

Lemma query_calls_app (t1 t2 : list event) :
  query_calls (t1 ++ t2) = query_calls t1 ++ query_calls t2.
Proof. apply List.filter_app. Qed.

(** No run of the program calls [review.abandon]. *)
Lemma main_never_abandons w p cmds :
  abandon_calls (trace (main w p cmds)) = [].
Proof.
  apply no_abandon_calls.
  by apply (main_hoare w p cmds (λ _, True) (λ ev, is_abandon ev = false)).
Qed.

Lemma report_never_abandons w qry title self :
  abandon_calls (trace (App.report w qry title self)) = [].
Proof.
  apply no_abandon_calls.
  by apply (report_hoare (λ _, True) (λ ev, is_abandon ev = false)).
Qed.

(** When the application cannot be built, [cli] stops there: the exception of
    [App] leaves [cli], and no subcommand runs. *)
Lemma main_halts w p cmds e :
  result (App.new w (server p) (embedded (user p))) = Raise e →
  main w p cmds
  = (Raise e, initial_ctx p cmds,
     cli_head p ++ trace (App.new w (server p) (embedded (user p)))).
Proof.
  intros Hnew. unfold main, cli. fold (initial_ctx p cmds).
  rewrite run_bind, run_get_bind. simpl. rewrite !run_emit_bind.
  unfold cli_head. fold (embedded (user p)).
  destruct (debug p); run; rewrite !run_bind; unfold new_app;
    destruct (App.new w (server p) (embedded (user p))) as [[[[]|e'] app] t];
    unfold result, trace in *; simpl in *; by simplify_eq.
Qed.

Lemma new_no_queries w server user :
  query_calls (trace (App.new w server user)) = [].
Proof.
  apply no_query_calls.
  by apply (new_hoare w server user (λ _, True) (λ ev, is_query ev = false)).
Qed.

(** C4.  Without the force flag, which is its default, no run of the program
    calls [review.abandon] on any review, whatever the servers return and
    however many reviews are eligible; and [report] itself makes no such call
    on any collection. *)
Theorem dry_run_never_abandons (w : World) (debug abandon : bool)
    (server output : option string) (abandon_age : Z) (user : string)
    (cmds : list command) (qry : option string) (title : string)
    (self : App.t) :
  abandon_calls
    (trace (main w {| debug := debug; server := server; abandon := abandon;
                      force := false; abandon_age := abandon_age;
                      user := user; output := output |} cmds)) = [] ∧
  abandon_calls (trace (App.report w qry title self)) = [].
Proof. split; [apply main_never_abandons | apply report_never_abandons]. Qed.

(** C2 on the code.  With [--abandon] and [--force], on a server that returns
    two eligible changes (open, scores -1 and -2, 95 and 120 days old, in the
    [owned] view), the run lists the changes and calls [review.abandon] on
    neither. *)
Theorem forced_abandon_not_invoked :
  let w := Examples.world [Examples.entry_A] in
  let x := main w (Examples.options "self" true true) [CmdOwned] in
  result x = Ret tt ∧
  List.filter (eligible 90 CmdOwned) <$> (App.reviews <$> Ctx.obj (final x))
  = Some [Review.mk (Examples.change 102 95 (Some (-1)) false) Examples.srv_A;
          Review.mk (Examples.change 103 120 (Some (-2)) false) Examples.srv_A] ∧
  abandon_calls (trace x) = [].
Proof. split_and!; reflexivity. Qed.

(** C5.  A constructed application holds at least one server, at its
    construction and at the end of every run.  When no entry of the
    configuration yields a server, the run ends with an exception before any
    server is queried and no application object exists; when every entry is
    rejected with [SystemError], the exception is that of [sys.exit(1)]. *)
Theorem no_endpoint_halts (w : World) (p : params) (cmds : list command) :
  (∀ server user,
     result (App.new w server user) = Ret tt →
     App.servers (final (App.new w server user)) ≠ []) ∧
  (∀ app, Ctx.obj (final (main w p cmds)) = Some app → App.servers app ≠ []) ∧
  ((∀ c l srv g, load_config w = Ret c → c !! "servers" = Some l → srv ∈ l →
                 ¬ constructs w srv g) →
   (∃ e, result (main w p cmds) = Raise e) ∧
   query_calls (trace (main w p cmds)) = [] ∧
   Ctx.obj (final (main w p cmds)) = None) ∧
  (∀ c l, load_config w = Ret c → c !! "servers" = Some l →
          server p = None → Forall (rejected w) l →
          result (main w p cmds) = Raise (SystemExit 1)).
Proof.
  split_and!.
  - intros server user. apply new_servers.
  - apply (main_hoare w p cmds (λ app, App.servers app ≠ []) (λ _, True));
      [done | apply new_servers | done | done].
  - intros Hnone.
    destruct (new_nothing_constructed w (server p) (embedded (user p)) Hnone)
      as [e He].
    rewrite (main_halts w p cmds e He).
    split_and!; [by exists e | | done].
    change (query_calls
              (cli_head p ++ trace (App.new w (server p) (embedded (user p))))
            = []).
    rewrite query_calls_app, new_no_queries. unfold cli_head.
    by destruct (debug p).
  - intros c l Hc Hl Hs Hall.
    pose proof (new_all_rejected w (embedded (user p)) c l Hc Hl Hall) as He.
    rewrite <- Hs in He. by rewrite (main_halts w p cmds _ He).
Qed.

Lemma no_endpoint_halts_witness :
  let w := Examples.world [Examples.entry_rejected] in
  let x := main w (Examples.options "self" false false) [] in
  Forall (rejected w) [Examples.entry_rejected] ∧
  result x = Raise (SystemExit 1).
Proof.
  assert (H : Forall (rejected (Examples.world [Examples.entry_rejected]))
                [Examples.entry_rejected]).
  { apply Forall_cons_2; [|apply Forall_nil_2].
    exists "https://x.example/", "X", "no credentials". by split_and!. }
  split; [exact H|].
  apply (no_endpoint_halts (Examples.world [Examples.entry_rejected])
           (Examples.options "self" false false) [])
    with (c := Examples.config [Examples.entry_rejected])
         (l := [Examples.entry_rejected]).
  - reflexivity.
  - reflexivity.
  - reflexivity.
  - exact H.
Defined.


(** A run of [incoming] for the user [John Doe]: the one query sent carries
    the name between double quotes. *)
Example incoming_query_quoted :
  query_calls
    (trace (main (Examples.world [Examples.entry_B])
              (Examples.options "John Doe" false false) [CmdIncoming]))
  = [ServerQuery Examples.srv_B
       ("reviewer:" +:+ dquote +:+ "John Doe" +:+ dquote +:+ " status:open")].
Proof. reflexivity. Qed.

(** ** Further properties of [App.query] and [App.report] *)

Lemma query_fields q self :
  App.cfg (final (App.query q self)) = App.cfg self ∧
  App.servers (final (App.query q self)) = App.servers self ∧
  App.user (final (App.query q self)) = App.user self.
Proof.
  destruct (query_hoare
              (λ s, App.cfg s = App.cfg self ∧
                    App.servers s = App.servers self ∧
                    App.user s = App.user self)
              (λ _, True) q) with self as (H & _ & _); done.
Qed.

Lemma report_fields w qry title self :
  App.cfg (final (App.report w qry title self)) = App.cfg self ∧
  App.servers (final (App.report w qry title self)) = App.servers self ∧
  App.user (final (App.report w qry title self)) = App.user self.
Proof.
  rewrite report_final. destruct (truthy qry); [apply query_fields | done].
Qed.

(** X1.  [App.query] and [App.report] write the attribute [reviews] and no other:
    the configuration, the list of servers and the user of the object are
    the same after the call as before it, whether the call returns or
    raises. *)
Theorem query_report_frame (w : World) (q : string) (qry : option string)
    (title : string) (self : App.t) :
  let x := App.query q self in
  let y := App.report w qry title self in
  (App.cfg (final x) = App.cfg self ∧
   App.servers (final x) = App.servers self ∧
   App.user (final x) = App.user self) ∧
  (App.cfg (final y) = App.cfg self ∧
   App.servers (final y) = App.servers self ∧
   App.user (final y) = App.user self).
Proof. split; [apply query_fields | apply report_fields]. Qed.

(** The loop of [query], from any state: the servers are queried in order up
    to the first one that raises, and the reviews appended come from the
    answers of the servers queried. *)
Lemma query_loop_prefix q (srvs : list GerritServer.t) (s : App.t) :
  ∃ (k : nat) (new : list Review.t),
    (k ≤ length srvs)%nat ∧
    trace (for_each srvs (query_body q) s)
      = (λ item, ServerQuery item q) <$> take k srvs ∧
    final (for_each srvs (query_body q) s)
      = App.set_reviews (App.reviews s ++ new) s ∧
    (result (for_each srvs (query_body q) s) = Ret tt → k = length srvs) ∧
    (∀ e, result (for_each srvs (query_body q) s) = Raise e →
       ∃ bad, last (take k srvs) = Some bad ∧
              GerritServer.query bad q = Raise e) ∧
    (∀ rv, rv ∈ new →
       Review.server rv ∈ take k srvs ∧
       ∃ recs, GerritServer.query (Review.server rv) q = Ret recs ∧
               Review.data rv ∈ recs).
Proof.
  revert s. induction srvs as [|item srvs IH]; intros s.
  - exists 0%nat, []. simpl. unfold result, final, trace. simpl.
    split_and!; [done | done | by rewrite app_nil_r, set_reviews_id | done
                | done | by intros rv ?%elem_of_nil].
  - simpl. rewrite run_bind.
    destruct (GerritServer.query item q) as [recs|e] eqn:Hq.
    + rewrite (query_body_ok _ _ _ _ Hq).
      destruct (IH (App.set_reviews (App.reviews s ++ stamped item recs) s))
        as (k & new & Hk & Ht & Hf & Hret & Hraise & Hnew).
      destruct (for_each srvs (query_body q) _) as [[r s2] t2].
      unfold result, final, trace in *. simpl in *.
      exists (S k), (stamped item recs ++ new). simpl.
      split_and!.
      * lia.
      * by rewrite Ht.
      * by rewrite Hf, set_reviews_twice, <- app_assoc.
      * intros Hr. by rewrite (Hret Hr).
      * intros e Hr. destruct (Hraise e Hr) as (bad & Hlast & Hbad).
        exists bad. split; [|done].
        destruct (take k srvs) eqn:Htk; [done|]. by rewrite last_cons, Hlast.
      * intros rv [Hin|Hin]%elem_of_app.
        -- apply list_elem_of_fmap in Hin as (r0 & -> & Hr0). simpl.
           split; [left | by exists recs].
        -- destruct (Hnew rv Hin) as (Hsrv & Hrecs). split; [by right | done].
    + rewrite (query_body_fails _ _ _ _ Hq).
      exists 1%nat, []. unfold result, final, trace. simpl.
      split_and!; [lia | done
                  | by rewrite app_nil_r, set_reviews_id | done | |
                    by intros rv ?%elem_of_nil].
      intros e' [= <-]. by exists item.
Qed.

(** The loop of [query], case by case: every server answers, or there is a
    first server that raises, where the loop stops. *)
Lemma query_loop_cases q (srvs : list GerritServer.t) (s : App.t) :
  (∃ results,
     answers q srvs results ∧
     for_each srvs (query_body q) s
     = (Ret tt,
        App.set_reviews (App.reviews s ++ concatenation srvs results) s,
        (λ item, ServerQuery item q) <$> srvs)) ∨
  (∃ pre bad post e results,
     srvs = pre ++ bad :: post ∧
     answers q pre results ∧
     GerritServer.query bad q = Raise e ∧
     for_each srvs (query_body q) s
     = (Raise e,
        App.set_reviews (App.reviews s ++ concatenation pre results) s,
        (λ item, ServerQuery item q) <$> (pre ++ [bad]))).
Proof.
  revert s. induction srvs as [|item srvs IH]; intros s.
  - left. exists []. split; [by constructor|].
    simpl. unfold concatenation. simpl. by rewrite app_nil_r, set_reviews_id.
  - destruct (GerritServer.query item q) as [recs|e] eqn:Hq.
    + destruct (IH (App.set_reviews (App.reviews s ++ stamped item recs) s))
        as [(results & Hres & Hrun)
           | (pre & bad & post & e & results & -> & Hres & Hbad & Hrun)].
      * left. exists (recs :: results).
        assert (Hall : answers q (item :: srvs) (recs :: results))
          by (by constructor).
        split; [done|]. by apply query_loop_ok.
      * right. exists (item :: pre), bad, post, e, (recs :: results).
        split_and!; [done | by constructor | done |].
        simpl. rewrite run_bind, (query_body_ok _ _ _ _ Hq), Hrun. simpl.
        unfold concatenation. simpl.
        by rewrite set_reviews_twice, <- app_assoc.
    + right. exists [], item, srvs, e, [].
      split_and!; [done | by constructor | done |].
      simpl. rewrite run_bind, (query_body_fails _ _ _ _ Hq).
      unfold concatenation. simpl. by rewrite app_nil_r, set_reviews_id.
Qed.

(** X2.  Whatever the servers answer, [App.query] does one of two things.
    When every server answers, it returns, having queried each server once,
    in the order of [self.servers], and stores the concatenation of the
    answers.  Otherwise there is a first server that raises: every server
    before it has answered, [query] has queried these servers and the
    failing one, each once and in order, and no server after it; it raises
    the exception of the failing server and stores the concatenation of the
    answers of the servers before it. *)
Theorem query_stops_at_first_failure (q : string) (self : App.t) :
  let x := App.query q self in
  (∃ results,
     answers q (App.servers self) results ∧
     result x = Ret tt ∧
     trace x = (λ item, ServerQuery item q) <$> App.servers self ∧
     App.reviews (final x) = concatenation (App.servers self) results) ∨
  (∃ pre bad post e results,
     App.servers self = pre ++ bad :: post ∧
     answers q pre results ∧
     GerritServer.query bad q = Raise e ∧
     result x = Raise e ∧
     trace x = (λ item, ServerQuery item q) <$> (pre ++ [bad]) ∧
     App.reviews (final x) = concatenation pre results).
Proof.
  intros x. subst x. rewrite query_unfold.
  destruct (query_loop_cases q (App.servers self) (App.set_reviews [] self))
    as [(results & Hres & ->)
       | (pre & bad & post & e & results & Hs & Hres & Hbad & ->)].
  - left. exists results. by split_and!.
  - right. exists pre, bad, post, e, results. by split_and!.
Qed.

Lemma query_forgets q (l : list Review.t) (self : App.t) :
  App.query q (App.set_reviews l self) = App.query q self.
Proof. by rewrite !query_unfold. Qed.

Lemma report_forgets w qry title (l : list Review.t) (self : App.t) :
  truthy qry = true →
  App.report w qry title (App.set_reviews l self) = App.report w qry title self.
Proof. intros Hq. by rewrite !report_run, Hq, query_forgets. Qed.

Lemma report_final_shape w qry title self :
  final (App.report w qry title self)
  = App.set_reviews (App.reviews (final (App.report w qry title self))) self.
Proof.
  destruct (report_fields w qry title self) as (Hc & Hs & Hu).
  destruct (final (App.report w qry title self)), self. simpl in *.
  by subst.
Qed.

(** X3.  A query starts from an empty collection: what [App.query], and
    [App.report] called with a query, return, emit and store does not depend
    on the reviews stored before.  So a report with a query that follows
    another report is the report it would have been on its own. *)
Theorem query_discards_previous (w : World) (q : string)
    (qry qry1 : option string) (title title1 : string)
    (l : list Review.t) (self : App.t) :
  App.query q (App.set_reviews l self) = App.query q self ∧
  (truthy qry = true →
   App.report w qry title (App.set_reviews l self)
   = App.report w qry title self) ∧
  (truthy qry = true →
   App.report w qry title (final (App.report w qry1 title1 self))
   = App.report w qry title self).
Proof.
  split_and!.
  - apply query_forgets.
  - apply report_forgets.
  - intros Hq. rewrite report_final_shape. by apply report_forgets.
Qed.

(** X4.  When the query of [report] raises, [report] raises the same exception
    and prints neither a table nor a summary line: its events are those of
    the query. *)
Theorem report_query_failure (w : World) (q title : string) (self : App.t)
    (e : exn) :
  q ≠ "" →
  result (App.query q self) = Raise e →
  let x := App.report w (Some q) title self in
  result x = Raise e ∧
  trace x = trace (App.query q self) ∧
  final x = final (App.query q self) ∧
  tables_printed (trace x) = [] ∧
  lines_printed (trace x) = [].
Proof.
  intros Hq He x. subst x. rewrite report_run.
  assert (Ht : truthy (Some q) = true).
  { simpl. by destruct (String.eqb_spec q ""). }
  rewrite Ht. simpl.
  destruct (query_prints_nothing q self) as [Hp1 Hp2].
  destruct (App.query q self) as [[[[]|e'] s1] t1];
    unfold result, final, trace in *; simpl in *; [done|].
  by simplify_eq.
Qed.

Lemma report_query_failure_witness :
  let self := Examples.app_of [Examples.srv_A; Examples.srv_down] [] in
  let x := App.report (Examples.world []) (Some "status:open") "Reviews" self in
  "status:open" ≠ "" ∧
  result x = Raise (OtherError "connection refused") ∧
  lines_printed (trace x) = [].
Proof.
  split; [discriminate|].
  split.
  - apply (report_query_failure (Examples.world []) "status:open" "Reviews"
             (Examples.app_of [Examples.srv_A; Examples.srv_down] [])
             (OtherError "connection refused")); [discriminate | reflexivity].
  - apply (report_query_failure (Examples.world []) "status:open" "Reviews"
             (Examples.app_of [Examples.srv_A; Examples.srv_down] [])
             (OtherError "connection refused")); [discriminate | reflexivity].
Defined.

(** ** Further properties of [App.__init__] *)

(** What the loop of [__init__] keeps, prints and logs, from any state and
    for any entries. *)
Lemma init_loop_account w (l : list (gmap string string)) (s : App.t) :
  ∃ gs : list GerritServer.t,
    final (for_each l (init_body w) s)
      = App.set_servers (App.servers s ++ gs) s ∧
    lines_printed (trace (for_each l (init_body w) s)) = [] ∧
    tables_printed (trace (for_each l (init_body w) s)) = [] ∧
    query_calls (trace (for_each l (init_body w) s)) = [] ∧
    Forall (λ e, is_SystemError e = true)
      (errors_logged (trace (for_each l (init_body w) s))) ∧
    (result (for_each l (init_body w) s) = Ret tt →
     length (constructor_calls (trace (for_each l (init_body w) s)))
     = (length gs + length (errors_logged (trace (for_each l (init_body w) s))))%nat).
Proof.
  revert s. induction l as [|srv l IH]; intros s.
  - exists []. unfold result, final, trace. simpl.
    split_and!; [by rewrite app_nil_r, set_servers_id | done..].
  - simpl. rewrite run_bind, init_body_run.
    destruct (srv !! "url") as [url|];
      [|exists []; unfold result, final, trace; simpl;
        split_and!; [by rewrite app_nil_r, set_servers_id | done..]].
    destruct (srv !! "name") as [name|];
      [|exists []; unfold result, final, trace; simpl;
        split_and!; [by rewrite app_nil_r, set_servers_id | done..]].
    destruct (new_server w url name) as [g|e].
    + destruct (IH (App.set_servers (App.servers s ++ [g]) s))
        as (gs & Hf & Hl & Ht & Hq & He & Hn).
      destruct (for_each l (init_body w) _) as [[r s2] t2].
      unfold result, final, trace in *. simpl in *.
      exists (g :: gs).
      split_and!; [by rewrite Hf, <- app_assoc | done..|].
      intros Hr. unfold constructor_calls in *. simpl. by rewrite (Hn Hr).
    + destruct (is_SystemError e) eqn:Hsys.
      * destruct (IH s) as (gs & Hf & Hl & Ht & Hq & He & Hn).
        destruct (for_each l (init_body w) s) as [[r s2] t2].
        unfold result, final, trace in *. simpl in *.
        exists gs.
        split_and!; [done | done | done | done | by constructor |].
        intros Hr. unfold constructor_calls in *. simpl. rewrite (Hn Hr). lia.
      * exists []. unfold result, final, trace. simpl.
        split_and!; [by rewrite app_nil_r, set_servers_id | done..].
Qed.






(** X6.  What stops [__init__] before it calls any constructor: a configuration
    that does not load, a configuration without the key ["servers"], and a
    [--server] value that is not an integer.  A [YAMLError] of the load is
    logged, and nothing else is, before [sys.exit(2)]; any other exception
    of the load, the [KeyError] and the [ValueError] leave [__init__] with
    nothing called, printed or logged. *)
Theorem init_fails_before_construction (w : World) (server : option string)
    (user : string) :
  let x := App.new w server user in
  (∀ e, load_config w = Raise e → is_YAMLError e = true →
        result x = Raise (SystemExit 2) ∧ trace x = [LogError e]) ∧
  (∀ e, load_config w = Raise e → is_YAMLError e = false →
        result x = Raise e ∧ trace x = []) ∧
  (∀ c, load_config w = Ret c → c !! "servers" = None →
        result x = Raise (KeyError "servers") ∧ trace x = []) ∧
  (∀ c l s, load_config w = Ret c → c !! "servers" = Some l →
            server = Some s → int_of_string w s = None →
            result x = Raise (ValueError s) ∧ trace x = []).
Proof.
  intros x. subst x. rewrite new_steps. split_and!.
  - intros e -> ->. done.
  - intros e -> ->. done.
  - intros c -> Hc. unfold select_entries, getitem. rewrite Hc.
    by destruct server.
  - intros c l s -> Hl -> Hi. unfold select_entries, getitem.
    rewrite Hl, Hi. by run.
Qed.

(** What a construction prints, logs and calls, whatever its outcome. *)
Lemma new_account w server user :
  let x := App.new w server user in
  tables_printed (trace x) = [] ∧
  query_calls (trace x) = [] ∧
  Forall (λ e, is_SystemError e = true
               ∨ (is_YAMLError e = true ∧ load_config w = Raise e))
    (errors_logged (trace x)) ∧
  (∀ e, result x = Raise e → lines_printed (trace x) = []) ∧
  (result x = Ret tt →
   Forall (λ e, is_SystemError e = true) (errors_logged (trace x)) ∧
   lines_printed (trace x) = [App.header (final x)] ∧
   last (trace x) = Some (TermPrint (App.header (final x))) ∧
   length (constructor_calls (trace x))
   = (length (App.servers (final x)) + length (errors_logged (trace x)))%nat).
Proof.
  intros x. subst x. rewrite new_steps.
  destruct (load_config w) as [c|e0] eqn:Hload.
  2: { destruct (is_YAMLError e0) eqn:Hy;
         unfold result, final, trace; simpl; split_and!; try done.
       apply Forall_cons_2; [by right | apply Forall_nil_2]. }
  destruct (select_entries_run w c server
              (App.set_user user (App.set_servers [] (App.set_cfg c App.blank))))
    as [[e0 ->] | (sel & l & -> & _)];
    [by unfold result, final, trace; simpl; split_and!|].
  destruct (init_loop_account w sel
              (App.set_user user (App.set_servers [] (App.set_cfg c App.blank))))
    as (gs & Hf & Hl & Ht & Hq & He & Hn).
  assert (He' : Forall (λ e, is_SystemError e = true
                             ∨ (is_YAMLError e = true ∧ Ret c = Raise e))
                  (errors_logged
                     (trace (for_each sel (init_body w)
                        (App.set_user user
                           (App.set_servers [] (App.set_cfg c App.blank))))))).
  { eapply Forall_impl; [exact He|]. intros e0 H0. by left. }
  destruct (for_each sel (init_body w) _) as [[[[]|e0] s2] t2];
    unfold result, final, trace in *; simpl in *;
    [|by split_and!].
  rewrite init_finish_run. subst s2. simpl.
  destruct gs as [|g gs]; simpl; [rewrite !app_nil_r; by split_and!|].
  assert (Hlog : errors_logged (t2 ++ [TermPrint (App.header
             (App.set_reviews []
                (App.set_servers (g :: gs)
                   (App.set_user user
                      (App.set_servers [] (App.set_cfg c App.blank))))))])
                 = errors_logged t2).
  { unfold errors_logged. rewrite omap_app. simpl. by rewrite app_nil_r. }
  split_and!.
  - unfold tables_printed in *. by rewrite omap_app, Ht.
  - unfold query_calls in *. by rewrite List.filter_app, Hq.
  - by rewrite Hlog.
  - done.
  - intros _. split_and!.
    + by rewrite Hlog.
    + unfold lines_printed in *. by rewrite omap_app, Hl.
    + by rewrite last_snoc.
    + rewrite Hlog. unfold constructor_calls in *.
      rewrite List.filter_app. simpl. rewrite !app_nil_r.
      by apply Hn.
Qed.

(** X7.  A construction that succeeds prints the header line once, as the last
    thing it does, for the servers the application holds.  A construction
    that fails prints nothing.  No construction prints a table or queries a
    server. *)
Theorem header_printed_once (w : World) (server : option string)
    (user : string) :
  let x := App.new w server user in
  (result x = Ret tt →
   lines_printed (trace x) = [App.header (final x)] ∧
   last (trace x) = Some (TermPrint (App.header (final x)))) ∧
  (∀ e, result x = Raise e → lines_printed (trace x) = []) ∧
  tables_printed (trace x) = [] ∧
  query_calls (trace x) = [].
Proof.
  intros x. destruct (new_account w server user) as (Ht & Hq & _ & Hr & Hok).
  fold x in Ht, Hq, Hr, Hok. split_and!; [|done..].
  intros Hret. by destruct (Hok Hret) as (_ & ? & ? & _).
Qed.

(** X8.  Every error a construction logs is a [SystemError] of the constructor
    or the [YAMLError] of the configuration load.  A construction that
    succeeds has logged [SystemError]s only and accounts for every
    constructor call: each call gave a server the application holds or an
    error that was logged. *)
Theorem constructor_calls_accounted (w : World) (server : option string)
    (user : string) :
  let x := App.new w server user in
  Forall (λ e, is_SystemError e = true
               ∨ (is_YAMLError e = true ∧ load_config w = Raise e))
    (errors_logged (trace x)) ∧
  (result x = Ret tt →
   Forall (λ e, is_SystemError e = true) (errors_logged (trace x)) ∧
   length (constructor_calls (trace x))
   = (length (App.servers (final x)) + length (errors_logged (trace x)))%nat).
Proof.
  intros x. destruct (new_account w server user) as (_ & _ & He & _ & Hok).
  fold x in He, Hok. split; [done|].
  intros Hret. by destruct (Hok Hret) as (? & _ & _ & ?).
Qed.

(** X9.  An entry of the configuration that fails with anything but a
    [SystemError] ends the construction: the exception leaves [__init__],
    the entries after it are not attempted, and no header is printed.  The
    constructor has been called for the entries before it and, when the
    exception is the constructor's, for the failing entry. *)
Theorem construction_aborts (w : World) (user : string) (cfg : Config)
    (pre post : list (gmap string string)) (srv : gmap string string)
    (e : exn) (calls : list event) :
  load_config w = Ret cfg → cfg !! "servers" = Some (pre ++ srv :: post) →
  Forall (λ srv, (∃ g, constructs w srv g) ∨ rejected w srv) pre →
  aborts_with w srv e calls →
  let x := App.new w None user in
  result x = Raise e ∧
  constructor_calls (trace x) = attempts pre ++ calls ∧
  App.servers (final x) = constructed w pre ∧
  lines_printed (trace x) = [].
Proof.
  intros Hload Hl Hpre Habort x.
  destruct (new_abort w user cfg pre srv post e calls Hload Hl Hpre Habort)
    as (Hr & Hc & _ & Hs).
  fold x in Hr, Hc, Hs. split_and!; [done..|].
  destruct (new_account w None user) as (_ & _ & _ & Hraise & _).
  by apply Hraise with e.
Qed.

Lemma construction_aborts_witness :
  let w := Examples.world
             [Examples.entry_A; Examples.entry_no_url; Examples.entry_B] in
  let x := App.new w None "self" in
  aborts_with w Examples.entry_no_url (KeyError "url") [] ∧
  result x = Raise (KeyError "url") ∧
  constructor_calls (trace x) = [NewGerritServer "https://a.example/" "A"].
Proof.
  assert (H : aborts_with
                (Examples.world
                   [Examples.entry_A; Examples.entry_no_url; Examples.entry_B])
                Examples.entry_no_url (KeyError "url") []).
  { left. by split_and!. }
  split; [exact H|].
  destruct (construction_aborts
              (Examples.world
                 [Examples.entry_A; Examples.entry_no_url; Examples.entry_B])
              "self"
              (Examples.config
                 [Examples.entry_A; Examples.entry_no_url; Examples.entry_B])
              [Examples.entry_A] [Examples.entry_B] Examples.entry_no_url
              (KeyError "url") []) as (Hr & Hc & _).
  - reflexivity.
  - reflexivity.
  - apply Forall_cons_2; [|apply Forall_nil_2].
    left. exists Examples.srv_A, "https://a.example/", "A". by split_and!.
  - exact H.
  - by split.
Defined.

(** ** Further properties of the command line *)

(** A subcommand is a report on the application object, for the query and
    the title of the subcommand. *)
Lemma invoke_run w c ctx app :
  Ctx.obj ctx = Some app →
  invoke w c ctx
  = match App.report w (Some (query_of c (App.user app)))
            (title_of c (App.user app)) app
    with (r, app', t) => (r, Ctx.set_obj (Some app') ctx, t) end.
Proof.
  intros Hobj.
  assert (Hu : ∀ B (k : string → M Ctx.t B),
            (on_obj (self ← get; mret (App.user self)) ≫= k) ctx
            = k (App.user app) (Ctx.set_obj (Some app) ctx)).
  { intros B k. rewrite run_bind. unfold on_obj at 1. rewrite Hobj. run.
    by destruct (k _ _) as [[r s2] t2]. }
  assert (Hr : ∀ qry title,
            on_obj (App.report w qry title) (Ctx.set_obj (Some app) ctx)
            = match App.report w qry title app with
              | (r, app', t) => (r, Ctx.set_obj (Some app') ctx, t)
              end).
  { intros qry title. unfold on_obj. simpl.
    by destruct (App.report w qry title app) as [[r app'] t]. }
  destruct c as [| |age]; simpl.
  - unfold owned. by rewrite Hu, Hr.
  - unfold incoming. by rewrite Hu, Hr.
  - unfold merged. by rewrite Hu, Hr, merged_query.
Qed.

Lemma invoke_no_obj w c ctx :
  Ctx.obj ctx = None →
  invoke w c ctx = (Raise (AttributeError "obj"), ctx, []).
Proof.
  intros Hobj. destruct c; simpl; unfold owned, incoming, merged;
    rewrite run_bind; unfold on_obj at 1; by rewrite Hobj.
Qed.

(** [cli], step by step. *)
Lemma cli_run w ctx :
  cli w ctx
  = let p := Ctx.params ctx in
    match App.new w (server p) (embedded (user p)) with
    | (Raise e, _, t) => (Raise e, ctx, cli_head p ++ t)
    | (Ret _, app, t) =>
        match Ctx.invoked_subcommand ctx with
        | Some _ =>
            (Ret tt, Ctx.set_obj (Some app) ctx,
             cli_head p ++ t ++ html_export p)
        | None =>
            match owned w (Ctx.set_obj (Some app) ctx) with
            | (Ret _, ctx2, t2) =>
                (Ret tt, ctx2,
                 cli_head p ++ t ++ [implicit_owned] ++ t2 ++ html_export p)
            | (Raise e, ctx2, t2) =>
                (Raise e, ctx2, cli_head p ++ t ++ [implicit_owned] ++ t2)
            end
        end
    end.
Proof.
  unfold cli. rewrite run_get_bind. simpl. rewrite !run_emit_bind.
  unfold cli_head, html_export. fold (embedded (user (Ctx.params ctx))).
  assert (Hd : ∀ B (k : unit → M Ctx.t B),
            ((if debug (Ctx.params ctx) then emit LogSetLevelDebug
              else mret tt) ≫= k) ctx
            = match k tt ctx with
              | (r, s2, t2) =>
                  (r, s2, (if debug (Ctx.params ctx) then [LogSetLevelDebug]
                           else []) ++ t2)
              end).
  { intros B k. destruct (debug _); run; by destruct (k tt ctx) as [[r s2] t2]. }
  rewrite Hd. rewrite run_bind. unfold new_app at 1.
  destruct (App.new w _ _) as [[[[]|e] app] t]; [|done].
  rewrite run_bind.
  destruct (Ctx.invoked_subcommand ctx) as [n|].
  - simpl. destruct (truthy _); simpl; by rewrite ?app_nil_r.
  - rewrite run_emit_bind.
    destruct (owned w _) as [[[[]|e] ctx2] t2]; [|done].
    destruct (truthy _); simpl; by rewrite ?app_nil_r.
Qed.

Lemma no_html_saved (t : list event) :
  Forall (λ ev, match ev with TermSaveHtml _ => False | _ => True end) t →
  html_saved t = [].
Proof.
  induction 1 as [|ev t Hev _ IH]; [done|]. by destruct ev.
Qed.

Lemma new_no_html w server user : html_saved (trace (App.new w server user)) = [].
Proof.
  apply no_html_saved.
  by apply (new_hoare w server user (λ _, True)
              (λ ev, match ev with TermSaveHtml _ => False | _ => True end)).
Qed.

Lemma report_no_html w qry title self :
  html_saved (trace (App.report w qry title self)) = [].
Proof.
  apply no_html_saved.
  by apply (report_hoare (λ _, True)
              (λ ev, match ev with TermSaveHtml _ => False | _ => True end)).
Qed.

Lemma html_saved_app (t1 t2 : list event) :
  html_saved (t1 ++ t2) = html_saved t1 ++ html_saved t2.
Proof. apply omap_app. Qed.

Lemma html_saved_export p :
  html_saved (html_export p)
  = if truthy (output p) then [default "" (output p)] else [].
Proof. unfold html_export. by destruct (truthy (output p)). Qed.

Lemma cli_head_plain p :
  query_calls (cli_head p) = [] ∧ tables_printed (cli_head p) = [] ∧
  html_saved (cli_head p) = [] ∧ lines_printed (cli_head p) = [].
Proof. unfold cli_head. by destruct (debug p). Qed.

Lemma html_export_plain p :
  query_calls (html_export p) = [] ∧ tables_printed (html_export p) = [] ∧
  lines_printed (html_export p) = [].
Proof. unfold html_export. by destruct (truthy (output p)). Qed.

Lemma last_export p (t : list event) :
  truthy (output p) = true →
  last (t ++ html_export p) = Some (TermSaveHtml (default "" (output p))).
Proof. intros H. unfold html_export. rewrite H. apply last_snoc. Qed.

(** What a report with a query prints and saves, by its outcome. *)
Lemma report_outcome w q title app :
  q ≠ "" →
  let y := App.report w (Some q) title app in
  html_saved (trace y) = [] ∧
  (result y = Ret tt → length (tables_printed (trace y)) = 1%nat) ∧
  (∀ e, result y = Raise e → tables_printed (trace y) = []).
Proof.
  intros Hq y. subst y. split_and!.
  - apply report_no_html.
  - intros Hr. destruct (report_prints w (Some q) title app Hr) as (Ht & _).
    by rewrite Ht.
  - intros e. rewrite report_run.
    assert (Ht : truthy (Some q) = true).
    { simpl. by destruct (String.eqb_spec q ""). }
    rewrite Ht. cbn [default from_option id].
    destruct (query_prints_nothing q app) as [Hp _].
    destruct (App.query q app) as [[[[]|e'] s1] t1];
      unfold result, trace in *; cbn [fst snd] in *; done.
Qed.

Lemma query_of_not_empty c u : query_of c u ≠ "".
Proof. by destruct c. Qed.

(** X10.  When a subcommand is given, [cli] builds the application and does
    nothing else with it: it queries no server and prints no table.  The
    export asked for with [--output] is written there, at the end of [cli],
    before any subcommand has run; it is written only when the application
    could be built.  The application stored in [ctx.obj] has at least one
    server and the user string in its embedded form. *)
Theorem cli_with_subcommand (w : World) (ctx : Ctx.t) (n : string) :
  Ctx.invoked_subcommand ctx = Some n →
  let p := Ctx.params ctx in
  let x := cli w ctx in
  query_calls (trace x) = [] ∧
  tables_printed (trace x) = [] ∧
  (result x = Ret tt →
   html_saved (trace x)
   = (if truthy (output p) then [default "" (output p)] else []) ∧
   (truthy (output p) = true →
    last (trace x) = Some (TermSaveHtml (default "" (output p)))) ∧
   ∃ app, Ctx.obj (final x) = Some app ∧ App.servers app ≠ [] ∧
          App.user app = embedded (user p)) ∧
  (∀ e, result x = Raise e → html_saved (trace x) = [] ∧ final x = ctx).
Proof.
  intros Hsub p x. subst p x. rewrite cli_run, Hsub. cbv zeta.
  remember (Ctx.params ctx) as p eqn:Hp.
  destruct (new_account w (server p) (embedded (user p))) as (Ht & Hq & _).
  pose proof (new_no_html w (server p) (embedded (user p))) as Hh.
  pose proof (new_servers w (server p) (embedded (user p))) as Hs.
  pose proof (new_user w (server p) (embedded (user p))) as Hu.
  destruct (cli_head_plain p) as (Hq0 & Ht0 & Hh0 & _).
  destruct (html_export_plain p) as (Hq1 & Ht1 & _).
  pose proof (html_saved_export p) as Hh1.
  destruct (App.new w _ _) as [[[[]|e] app] t];
    unfold result, final, trace in *; cbn [fst snd] in *.
  - unfold tables_printed in *. rewrite !query_calls_app.
    rewrite !omap_app, Hq0, Hq, Hq1, Ht0, Ht, Ht1.
    split_and!; [done | done | | done].
    intros _. split_and!.
    + by rewrite !html_saved_app, Hh0, Hh, Hh1.
    + intros Hout. rewrite app_assoc. by apply last_export.
    + exists app. split_and!; [done | by apply Hs | by apply Hu].
  - unfold tables_printed in *. rewrite query_calls_app.
    rewrite !omap_app, Hq0, Hq, Ht0, Ht.
    split_and!; [done | done | done |].
    intros e' _. by rewrite html_saved_app, Hh0, Hh.
Qed.

Lemma cli_with_subcommand_witness :
  let ctx := initial_ctx {| debug := false; server := None; abandon := false;
                            force := false; abandon_age := 90;
                            user := "self"; output := Some "out.html" |}
               [CmdIncoming] in
  let x := cli (Examples.world [Examples.entry_A]) ctx in
  Ctx.invoked_subcommand ctx = Some "*" ∧
  query_calls (trace x) = [] ∧ tables_printed (trace x) = [].
Proof.
  split; [reflexivity|].
  destruct (cli_with_subcommand (Examples.world [Examples.entry_A])
              (initial_ctx {| debug := false; server := None; abandon := false;
                              force := false; abandon_age := 90;
                              user := "self"; output := Some "out.html" |}
                 [CmdIncoming]) "*" eq_refl) as (Hq & Ht & _).
  by split.
Defined.

(** X11.  Without a subcommand, [cli] runs [owned] itself after logging that it
    does so, and writes the export asked for with [--output] last, after the
    report, and only when the construction and the report have both
    succeeded. *)
Theorem cli_without_subcommand (w : World) (ctx : Ctx.t) :
  Ctx.invoked_subcommand ctx = None →
  let p := Ctx.params ctx in
  let x := cli w ctx in
  (result x = Ret tt →
   html_saved (trace x)
   = (if truthy (output p) then [default "" (output p)] else []) ∧
   (truthy (output p) = true →
    last (trace x) = Some (TermSaveHtml (default "" (output p)))) ∧
   implicit_owned ∈ trace x ∧
   length (tables_printed (trace x)) = 1%nat) ∧
  (∀ e, result x = Raise e →
        html_saved (trace x) = [] ∧ tables_printed (trace x) = []).
Proof.
  intros Hsub p x. subst p x. rewrite cli_run, Hsub. cbv zeta.
  remember (Ctx.params ctx) as p eqn:Hp.
  destruct (new_account w (server p) (embedded (user p))) as (Ht & _).
  pose proof (new_no_html w (server p) (embedded (user p))) as Hh.
  destruct (cli_head_plain p) as (_ & Ht0 & Hh0 & _).
  destruct (html_export_plain p) as (_ & Ht1 & _).
  pose proof (html_saved_export p) as Hh1.
  destruct (App.new w _ _) as [[[[]|e] app] t];
    unfold result, final, trace in *; cbn [fst snd] in *.
  - change (owned w) with (invoke w CmdOwned).
    rewrite (invoke_run w CmdOwned (Ctx.set_obj (Some app) ctx) app eq_refl).
    destruct (report_outcome w (query_of CmdOwned (App.user app))
                (title_of CmdOwned (App.user app)) app
                (query_of_not_empty _ _)) as (Hh2 & Hok & Hfail).
    destruct (App.report w _ _ app) as [[[[]|e] app'] t2];
      unfold result, final, trace in *; cbn [fst snd] in *.
    + split; [|done]. intros _. split_and!.
      * by rewrite !html_saved_app, Hh0, Hh, Hh2, Hh1.
      * intros Hout. rewrite !app_assoc. by apply last_export.
      * apply elem_of_app. right. apply elem_of_app. right.
        apply elem_of_app. left. apply list_elem_of_singleton. done.
      * unfold tables_printed in *. rewrite !omap_app, Ht0, Ht, Ht1.
        simpl. rewrite app_nil_r. by apply Hok.
    + split; [done|]. intros e' _. split.
      * by rewrite !html_saved_app, Hh0, Hh, Hh2.
      * unfold tables_printed in *. rewrite !omap_app, Ht0, Ht. simpl.
        by apply Hfail with e.
  - split; [done|]. intros e' _. split.
    + by rewrite html_saved_app, Hh0, Hh.
    + unfold tables_printed in *. by rewrite omap_app, Ht0, Ht.
Qed.

Lemma cli_without_subcommand_witness :
  let ctx := initial_ctx {| debug := false; server := None; abandon := false;
                            force := false; abandon_age := 90;
                            user := "self"; output := Some "out.html" |} [] in
  let x := cli (Examples.world [Examples.entry_A]) ctx in
  Ctx.invoked_subcommand ctx = None ∧
  result x = Ret tt ∧
  last (trace x) = Some (TermSaveHtml "out.html").
Proof.
  split; [reflexivity|]. split; [reflexivity|].
  destruct (cli_without_subcommand (Examples.world [Examples.entry_A])
              (initial_ctx {| debug := false; server := None; abandon := false;
                              force := false; abandon_age := 90;
                              user := "self"; output := Some "out.html" |} [])
              eq_refl) as [Hok _].
  destruct (Hok eq_refl) as (_ & Hlast & _). by apply Hlast.
Defined.

Lemma main_unfold w p cmds :
  main w p cmds = (cli w ;; for_each cmds (invoke w)) (initial_ctx p cmds).
Proof. reflexivity. Qed.

(** What a subcommand shows depends on the application object only. *)
Lemma invoke_observe w c ctx :
  observe (invoke w c ctx)
  = match Ctx.obj ctx with
    | None => (Raise (AttributeError "obj"), None, [])
    | Some app =>
        match App.report w (Some (query_of c (App.user app)))
                (title_of c (App.user app)) app
        with (r, app', t) => (r, Some app', t) end
    end.
Proof.
  destruct (Ctx.obj ctx) as [app|] eqn:Hobj.
  - rewrite (invoke_run w c ctx app Hobj).
    by destruct (App.report w _ _ app) as [[r app'] t].
  - rewrite (invoke_no_obj w c ctx Hobj). unfold observe, result, final, trace.
    simpl. by rewrite Hobj.
Qed.

Lemma observe_inv {A} (x y : outcome A * Ctx.t * list event) :
  observe x = observe y →
  x.1.1 = y.1.1 ∧ Ctx.obj x.1.2 = Ctx.obj y.1.2 ∧ x.2 = y.2.
Proof. unfold observe, result, final, trace. by intros [= -> -> ->]. Qed.

Lemma for_each_invoke_observe w cmds ctx ctx' :
  Ctx.obj ctx = Ctx.obj ctx' →
  observe (for_each cmds (invoke w) ctx)
  = observe (for_each cmds (invoke w) ctx').
Proof.
  revert ctx ctx'. induction cmds as [|c cmds IH]; intros ctx ctx' Hobj.
  - unfold observe, result, final, trace. simpl. by rewrite Hobj.
  - simpl. rewrite !run_bind.
    assert (Hc : observe (invoke w c ctx) = observe (invoke w c ctx'))
      by (by rewrite !invoke_observe, Hobj).
    apply observe_inv in Hc as (Hr & Ho & Ht).
    destruct (invoke w c ctx) as [[r1 c1] t1].
    destruct (invoke w c ctx') as [[r2 c2] t2]. simpl in *. subst r2 t2.
    destruct r1 as [[]|e].
    + specialize (IH c1 c2 Ho). apply observe_inv in IH as (Hr & Ho' & Ht).
      destruct (for_each cmds (invoke w) c1) as [[r3 c3] t3].
      destruct (for_each cmds (invoke w) c2) as [[r4 c4] t4]. simpl in *.
      unfold observe, result, final, trace. simpl. by rewrite Hr, Ho', Ht.
    + unfold observe, result, final, trace. simpl. by rewrite Ho.
Qed.

(** What [cli] shows, as a function of the options [--debug], [--server],
    [--user] and [--output], of the subcommand marker and of [ctx.obj]. *)
Lemma cli_observe w ctx :
  observe (cli w ctx)
  = let p := Ctx.params ctx in
    match App.new w (server p) (embedded (user p)) with
    | (Raise e, _, t) => (Raise e, Ctx.obj ctx, cli_head p ++ t)
    | (Ret _, app, t) =>
        match Ctx.invoked_subcommand ctx with
        | Some _ => (Ret tt, Some app, cli_head p ++ t ++ html_export p)
        | None =>
            match App.report w (Some (query_of CmdOwned (App.user app)))
                    (title_of CmdOwned (App.user app)) app
            with
            | (Ret _, app', t2) =>
                (Ret tt, Some app',
                 cli_head p ++ t ++ [implicit_owned] ++ t2 ++ html_export p)
            | (Raise e, app', t2) =>
                (Raise e, Some app',
                 cli_head p ++ t ++ [implicit_owned] ++ t2)
            end
        end
    end.
Proof.
  rewrite cli_run. cbv zeta.
  destruct (App.new w _ _) as [[[[]|e] app] t]; [|done].
  destruct (Ctx.invoked_subcommand ctx); [done|].
  change (owned w) with (invoke w CmdOwned).
  rewrite (invoke_run w CmdOwned (Ctx.set_obj (Some app) ctx) app eq_refl).
  by destruct (App.report w _ _ app) as [[[[]|e] app'] t2].
Qed.

(** What a run shows: what [cli] shows, and then the subcommands on the
    application object [cli] has left. *)
Lemma main_observe w p cmds (base : Ctx.t) :
  observe (main w p cmds)
  = match observe (cli w (initial_ctx p cmds)) with
    | (Ret _, o, t1) =>
        match observe (for_each cmds (invoke w) (Ctx.set_obj o base)) with
        | (r, o', t2) => (r, o', t1 ++ t2)
        end
    | (Raise e, o, t1) => (Raise e, o, t1)
    end.
Proof.
  rewrite main_unfold, run_bind.
  destruct (cli w (initial_ctx p cmds)) as [[[[]|e] c1] t1]; [|done].
  pose proof (for_each_invoke_observe w cmds c1
                (Ctx.set_obj (Ctx.obj c1) base) eq_refl) as H.
  apply observe_inv in H as (Hr & Ho & Ht).
  unfold observe, result, final, trace in *. simpl in *.
  destruct (for_each cmds (invoke w) c1) as [[r2 c2] t2].
  destruct (for_each cmds (invoke w) (Ctx.set_obj _ base)) as [[r3 c3] t3].
  simpl in *. by rewrite Hr, Ho, Ht.
Qed.

(** X12.  The options [--abandon], [--force] and [--abandon-age] reach the log
    line that shows [ctx.params] and nothing else: two runs that differ in
    these options only return or raise the same, leave the same application
    object, and make the same calls in the same order, but for the argument
    of that log line, which is the second call of either run. *)
Theorem abandon_options_ignored (w : World) (p : params)
    (cmds : list command) (a f : bool) (age : Z) :
  let x := main w (with_abandon a f age p) cmds in
  let y := main w p cmds in
  result x = result y ∧
  Ctx.obj (final x) = Ctx.obj (final y) ∧
  ∃ t,
    trace x
    = LogAddHandler
        :: LogWarning "Called with %s" (with_abandon a f age p) :: t ∧
    trace y = LogAddHandler :: LogWarning "Called with %s" p :: t.
Proof.
  intros x y.
  assert (H : ∃ r o t,
    observe x
    = (r, o, LogAddHandler
               :: LogWarning "Called with %s" (with_abandon a f age p) :: t) ∧
    observe y = (r, o, LogAddHandler :: LogWarning "Called with %s" p :: t)).
  { subst x y.
    rewrite (main_observe w (with_abandon a f age p) cmds (initial_ctx p cmds)).
    rewrite (main_observe w p cmds (initial_ctx p cmds)).
    rewrite !cli_observe. cbv zeta. unfold cli_head, html_export.
    change (Ctx.params (initial_ctx (with_abandon a f age p) cmds))
      with (with_abandon a f age p).
    change (Ctx.params (initial_ctx p cmds)) with p.
    change (Ctx.invoked_subcommand (initial_ctx (with_abandon a f age p) cmds))
      with (Ctx.invoked_subcommand (initial_ctx p cmds)).
    change (Ctx.obj (initial_ctx (with_abandon a f age p) cmds))
      with (Ctx.obj (initial_ctx p cmds)).
    change (debug (with_abandon a f age p)) with (debug p).
    change (server (with_abandon a f age p)) with (server p).
    change (user (with_abandon a f age p)) with (user p).
    change (output (with_abandon a f age p)) with (output p).
    destruct (App.new w (server p) (embedded (user p))) as [[[[]|e] app] t];
      [|by eexists _, _, _].
    destruct (Ctx.invoked_subcommand (initial_ctx p cmds)).
    - destruct (observe (for_each cmds (invoke w) _)) as [[r o] t2].
      by eexists _, _, _.
    - destruct (App.report w _ _ app) as [[[[]|e] app'] t2];
        [|by eexists _, _, _].
      destruct (observe (for_each cmds (invoke w) _)) as [[r o] t3].
      by eexists _, _, _. }
  destruct H as (r & o & t & Hx & Hy).
  unfold observe in Hx, Hy. simplify_eq. split_and!; [congruence.. |].
  exists t. by split.
Qed.

Lemma for_each_single_observe w c ctx :
  observe (for_each [c] (invoke w) ctx) = observe (invoke w c ctx).
Proof.
  simpl. rewrite run_bind.
  destruct (invoke w c ctx) as [[[[]|e] c1] t1]; [|done].
  unfold observe, result, final, trace. simpl. by rewrite app_nil_r.
Qed.

(** X13.  Running the program without a subcommand is running it with the
    subcommand [owned], but for one more log line: when no export is asked
    for, both runs return or raise the same, leave the same application
    object and make the same calls in the same order, with the line that
    announces the implicit [owned] logged between the construction and the
    report when the application could be built. *)
Theorem implicit_owned_is_owned (w : World) (p : params) :
  truthy (output p) = false →
  let x := main w p [] in
  let y := main w p [CmdOwned] in
  result x = result y ∧
  Ctx.obj (final x) = Ctx.obj (final y) ∧
  ∃ t1 t2,
    trace y = t1 ++ t2 ∧
    trace x
    = t1 ++ match result (App.new w (server p) (embedded (user p))) with
            | Ret _ => [implicit_owned]
            | Raise _ => []
            end ++ t2.
Proof.
  intros Hout x y.
  assert (Hexp : html_export p = []) by (unfold html_export; by rewrite Hout).
  assert (Hx : observe x = observe (cli w (initial_ctx p []))).
  { subst x. rewrite (main_observe w p [] (initial_ctx p [])).
    destruct (observe (cli w _)) as [[[[]|e] o] t1]; [|done].
    unfold observe, result, final, trace. simpl. by rewrite app_nil_r. }
  pose proof (main_observe w p [CmdOwned] (initial_ctx p [CmdOwned])) as Hy.
  fold y in Hy. rewrite cli_observe in Hx, Hy. cbv zeta in Hx, Hy.
  cbn [initial_ctx Ctx.params Ctx.invoked_subcommand Ctx.obj] in Hx, Hy.
  rewrite Hexp in Hx, Hy.
  destruct (App.new w (server p) (embedded (user p)))
    as [[[[]|e] app] t].
  - rewrite for_each_single_observe, invoke_observe in Hy.
    cbn [initial_ctx Ctx.set_obj Ctx.obj] in Hy.
    destruct (App.report w _ _ app) as [[[[]|e] app'] t2];
      apply (f_equal (λ o, (o.1.1, o.1.2, o.2))) in Hx, Hy;
      unfold observe in Hx, Hy; cbn [fst snd] in Hx, Hy;
      injection Hx as Hx1 Hx2 Hx3; injection Hy as Hy1 Hy2 Hy3;
      (split_and!; [by rewrite Hx1, Hy1 | by rewrite Hx2, Hy2 |]);
      exists (cli_head p ++ t), t2; rewrite Hx3, Hy3;
      unfold result; cbn [fst snd]; rewrite ?app_nil_r;
      by rewrite <- ?app_assoc.
  - apply (f_equal (λ o, (o.1.1, o.1.2, o.2))) in Hx, Hy.
    unfold observe in Hx, Hy. cbn [fst snd] in Hx, Hy.
    injection Hx as Hx1 Hx2 Hx3. injection Hy as Hy1 Hy2 Hy3.
    split_and!; [by rewrite Hx1, Hy1 | by rewrite Hx2, Hy2 |].
    exists (cli_head p ++ t), []. rewrite Hx3, Hy3.
    unfold result. cbn [fst snd]. by rewrite !app_nil_r.
Qed.

Lemma implicit_owned_is_owned_witness :
  let w := Examples.world [Examples.entry_A] in
  let p := Examples.options "self" false false in
  truthy (output p) = false ∧
  result (main w p []) = result (main w p [CmdOwned]).
Proof.
  split; [reflexivity|].
  apply (implicit_owned_is_owned (Examples.world [Examples.entry_A])
           (Examples.options "self" false false)).
  reflexivity.
Defined.

(** The subcommands of a run that returns, one after the other: each prints
    one table with its title and one summary line, and leaves the user of
    the application as it was. *)
Lemma invoke_all_prints w cmds ctx app :
  Ctx.obj ctx = Some app →
  result (for_each cmds (invoke w) ctx) = Ret tt →
  Table.title <$> tables_printed (trace (for_each cmds (invoke w) ctx))
  = (λ c, title_of c (App.user app)) <$> cmds ∧
  length (lines_printed (trace (for_each cmds (invoke w) ctx))) = length cmds.
Proof.
  revert ctx app. induction cmds as [|c cmds IH]; intros ctx app Hobj Hret.
  - done.
  - simpl in *. rewrite run_bind in *.
    rewrite (invoke_run w c ctx app Hobj) in *.
    pose proof (report_prints w (Some (query_of c (App.user app)))
                  (title_of c (App.user app)) app) as Hp.
    destruct (report_fields w (Some (query_of c (App.user app)))
                (title_of c (App.user app)) app) as (_ & _ & Hu).
    destruct (App.report w _ _ app) as [[[[]|e] app'] t];
      unfold result, final, trace in *; simpl in *; [|done].
    destruct (Hp eq_refl) as (Ht & Hl & _).
    specialize (IH (Ctx.set_obj (Some app') ctx) app' eq_refl).
    destruct (for_each cmds (invoke w) _) as [[r c2] t2]. simpl in *.
    destruct (IH Hret) as (IHt & IHl).
    unfold tables_printed, lines_printed in *.
    rewrite !omap_app, Ht, Hl, fmap_app, length_app, IHt, IHl, Hu. done.
Qed.

Lemma tables_printed_app (t1 t2 : list event) :
  tables_printed (t1 ++ t2) = tables_printed t1 ++ tables_printed t2.
Proof. apply omap_app. Qed.

Lemma lines_printed_app (t1 t2 : list event) :
  lines_printed (t1 ++ t2) = lines_printed t1 ++ lines_printed t2.
Proof. apply omap_app. Qed.

Lemma observe_eq {A} (x : outcome A * Ctx.t * list event) r o t :
  observe x = (r, o, t) → result x = r ∧ Ctx.obj (final x) = o ∧ trace x = t.
Proof. unfold observe. by intros [= -> -> ->]. Qed.

Lemma main_nil_observe w p :
  observe (main w p []) = observe (cli w (initial_ctx p [])).
Proof.
  rewrite (main_observe w p [] (initial_ctx p [])).
  destruct (observe (cli w _)) as [[[[]|e] o] t1]; [|done].
  unfold observe, result, final, trace. simpl. by rewrite app_nil_r.
Qed.

(** X14.  A run that returns has printed the header, and then one table and one
    summary line for each subcommand run, in order ([owned] when none is
    given).  The title of the table is that of the subcommand: ["Own
    reviews"] or ["Reviews owned by <user>"] for [owned], ["Merged Reviews"]
    for [incoming] as well as, with the number of days, for [merged]. *)
Theorem one_table_per_subcommand (w : World) (p : params)
    (cmds : list command) :
  result (main w p cmds) = Ret tt →
  Table.title <$> tables_printed (trace (main w p cmds))
  = (λ c, match c with
          | CmdOwned =>
              if String.eqb (embedded (user p)) "self" then "Own reviews"
              else "Reviews owned by " +:+ embedded (user p)
          | CmdIncoming => "Merged Reviews"
          | CmdMerged age => "Merged Reviews (" +:+ pretty age +:+ "d)"
          end) <$> commands_run cmds ∧
  length (lines_printed (trace (main w p cmds)))
  = S (length (commands_run cmds)).
Proof.
  change (λ c, match c with
               | CmdOwned =>
                   if String.eqb (embedded (user p)) "self" then "Own reviews"
                   else "Reviews owned by " +:+ embedded (user p)
               | CmdIncoming => "Merged Reviews"
               | CmdMerged age => "Merged Reviews (" +:+ pretty age +:+ "d)"
               end)
    with (λ c, title_of c (embedded (user p))).
  destruct (new_account w (server p) (embedded (user p)))
    as (Ht & _ & _ & _ & Hok).
  pose proof (new_user w (server p) (embedded (user p))) as Hu.
  destruct (cli_head_plain p) as (_ & Ht0 & _ & Hl0).
  destruct (html_export_plain p) as (_ & Ht1 & Hl1).
  destruct cmds as [|c cmds].
  - pose proof (main_nil_observe w p) as Hx. rewrite cli_observe in Hx.
    cbv zeta in Hx.
    cbn [initial_ctx Ctx.params Ctx.invoked_subcommand Ctx.obj] in Hx.
    destruct (App.new w _ _) as [[[[]|e] app] t].
    + unfold result, final, trace in Hok, Hu, Ht.
      cbn [fst snd] in Hok, Hu, Ht.
      destruct (Hok eq_refl) as (_ & Hl & _). specialize (Hu eq_refl).
      pose proof (report_prints w (Some (query_of CmdOwned (App.user app)))
                    (title_of CmdOwned (App.user app)) app) as Hp.
      destruct (App.report w _ _ app) as [[[[]|e] app'] t2].
      * apply observe_eq in Hx as (_ & _ & ->). intros _.
        destruct (Hp eq_refl) as (Hpt & Hpl & _).
        unfold trace in Hpt, Hpl. cbn [fst snd] in Hpt, Hpl.
        rewrite !tables_printed_app, !lines_printed_app.
        rewrite Ht0, Ht, Ht1, Hl0, Hl, Hl1, Hpt, Hpl.
        cbn [commands_run]. by rewrite Hu.
      * apply observe_eq in Hx as (-> & _). done.
    + apply observe_eq in Hx as (-> & _). done.
  - pose proof (main_observe w p (c :: cmds) (initial_ctx p (c :: cmds)))
      as Hx.
    rewrite cli_observe in Hx. cbv zeta in Hx.
    cbn [initial_ctx Ctx.params Ctx.invoked_subcommand Ctx.obj] in Hx.
    destruct (App.new w _ _) as [[[[]|e] app] t].
    + unfold result, final, trace in Hok, Hu, Ht.
      cbn [fst snd] in Hok, Hu, Ht.
      destruct (Hok eq_refl) as (_ & Hl & _). specialize (Hu eq_refl).
      pose proof (invoke_all_prints w (c :: cmds)
                    (Ctx.set_obj (Some app)
                       {| Ctx.params := p; Ctx.invoked_subcommand := Some "*";
                          Ctx.obj := None |}) app eq_refl) as Hall.
      destruct (for_each (c :: cmds) (invoke w) _) as [[r c2] t2].
      unfold observe at 2 in Hx.
      unfold result, final, trace in Hx, Hall. cbn [fst snd] in Hx, Hall.
      apply observe_eq in Hx as (-> & _ & ->). intros Hr.
      destruct (Hall Hr) as (Hat & Hal).
      rewrite !tables_printed_app, !lines_printed_app.
      rewrite Ht0, Ht, Ht1, Hl0, Hl, Hl1.
      rewrite ?app_nil_l, ?app_nil_r, Hat, length_app, Hal, Hu. done.
    + apply observe_eq in Hx as (-> & _). done.
Qed.

Lemma one_table_per_subcommand_witness :
  let w := Examples.world [Examples.entry_A] in
  let p := Examples.options "John Doe" false false in
  result (main w p [CmdIncoming; CmdMerged 3]) = Ret tt ∧
  Table.title <$> tables_printed (trace (main w p [CmdIncoming; CmdMerged 3]))
  = ["Merged Reviews"; "Merged Reviews (3d)"].
Proof.
  split; [reflexivity|].
  apply (one_table_per_subcommand (Examples.world [Examples.entry_A])
           (Examples.options "John Doe" false false)
           [CmdIncoming; CmdMerged 3]).
  reflexivity.
Defined.

(** ** [CustomGroup.get_command] *)





(** ** The queries of a run *)

Lemma queries_logs (l : list Review.t) :
  query_calls ((λ r, LogDebug (Review.data r)) <$> l) = [].
Proof. induction l as [|r l IH]; done. Qed.

(** A report with a query that returns has queried every server once, in
    order. *)
Lemma report_queries w q title app :
  q ≠ "" →
  result (App.report w (Some q) title app) = Ret tt →
  query_calls (trace (App.report w (Some q) title app))
  = (λ item, ServerQuery item q) <$> App.servers app.
Proof.
  intros Hq. rewrite report_run.
  assert (Ht : truthy (Some q) = true).
  { simpl. by destruct (String.eqb_spec q ""). }
  rewrite Ht. cbn [default from_option id].
  pose proof (query_unfold q app) as Hu.
  destruct (query_loop_prefix q (App.servers app) (App.set_reviews [] app))
    as (k & _ & _ & Htr & _ & Hret & _).
  destruct (for_each _ _ _) as [[r s] t]. rewrite Hu.
  unfold result, final, trace in *; cbn [fst snd] in *.
  destruct r as [[]|e]; cbn [fst snd]; [|done].
  intros _. rewrite (Hret eq_refl), firstn_all in Htr. subst t.
  rewrite !query_calls_app, query_calls_all, queries_logs. simpl.
  by rewrite app_nil_r.
Qed.

Lemma invoke_all_queries w cmds ctx app :
  Ctx.obj ctx = Some app →
  result (for_each cmds (invoke w) ctx) = Ret tt →
  query_calls (trace (for_each cmds (invoke w) ctx))
  = queries_of cmds (App.user app) (App.servers app) ∧
  ∃ app', Ctx.obj (final (for_each cmds (invoke w) ctx)) = Some app' ∧
          App.servers app' = App.servers app.
Proof.
  revert ctx app. induction cmds as [|c cmds IH]; intros ctx app Hobj Hret.
  - split; [done|]. by exists app.
  - simpl in Hret |- *. rewrite run_bind in Hret |- *.
    rewrite (invoke_run w c ctx app Hobj) in Hret |- *.
    pose proof (report_queries w (query_of c (App.user app))
                  (title_of c (App.user app)) app
                  (query_of_not_empty _ _)) as Hq.
    destruct (report_fields w (Some (query_of c (App.user app)))
                (title_of c (App.user app)) app) as (_ & Hs & Hu).
    destruct (App.report w _ _ app) as [[[[]|e] app'] t];
      unfold result, final, trace in *; cbn [fst snd] in *; [|done].
    specialize (IH (Ctx.set_obj (Some app') ctx) app' eq_refl).
    destruct (for_each cmds (invoke w) _) as [[r c2] t2].
    cbn [fst snd] in *.
    destruct (IH Hret) as (IHq & app2 & Ho & Hs2). split.
    + rewrite query_calls_app, (Hq eq_refl), IHq, Hs, Hu.
      reflexivity.
    + exists app2. split; [done|]. by rewrite Hs2.
Qed.

(** A run that returns: the application has been built, and the
    subcommands run ([owned] when none is given) have all returned. *)
Lemma main_returns w p cmds :
  result (main w p cmds) = Ret tt →
  ∃ app t t2 o,
    App.new w (server p) (embedded (user p)) = (Ret tt, app, t) ∧
    observe (for_each (commands_run cmds) (invoke w)
               (Ctx.set_obj (Some app) (initial_ctx p cmds)))
    = (Ret tt, o, t2) ∧
    Ctx.obj (final (main w p cmds)) = o ∧
    (trace (main w p cmds)
     = cli_head p ++ t ++ [implicit_owned] ++ t2 ++ html_export p ∨
     trace (main w p cmds) = (cli_head p ++ t ++ html_export p) ++ t2).
Proof.
  intros Hret. destruct cmds as [|c cmds].
  - pose proof (main_nil_observe w p) as Hx. rewrite cli_observe in Hx.
    cbv zeta in Hx.
    cbn [initial_ctx Ctx.params Ctx.invoked_subcommand Ctx.obj] in Hx.
    pose proof (for_each_single_observe w CmdOwned) as Hf.
    destruct (App.new w _ _) as [[[[]|e] app] t].
    + specialize (Hf (Ctx.set_obj (Some app) (initial_ctx p []))).
      rewrite invoke_observe in Hf. cbn [Ctx.set_obj Ctx.obj] in Hf.
      destruct (App.report w _ _ app) as [[[[]|e] app'] t2].
      * apply observe_eq in Hx as (_ & Ho & Ht).
        exists app, t, t2, (Some app'). split_and!; [done..|]. by left.
      * apply observe_eq in Hx as (Hr & _). by rewrite Hr in Hret.
    + apply observe_eq in Hx as (Hr & _). by rewrite Hr in Hret.
  - pose proof (main_observe w p (c :: cmds) (initial_ctx p (c :: cmds)))
      as Hx.
    rewrite cli_observe in Hx. cbv zeta in Hx.
    cbn [initial_ctx Ctx.params Ctx.invoked_subcommand Ctx.obj] in Hx.
    destruct (App.new w _ _) as [[[[]|e] app] t].
    + cbn [commands_run].
      destruct (observe (for_each (c :: cmds) (invoke w) _))
        as [[r o] t2] eqn:Hf.
      apply observe_eq in Hx as (Hr & Ho & Ht).
      rewrite Hret in Hr. subst r.
      exists app, t, t2, o. split_and!; [done..|]. by right.
    + apply observe_eq in Hx as (Hr & _). by rewrite Hr in Hret.
Qed.

(** The queries of a run that returns. *)
Lemma main_queries w p cmds :
  result (main w p cmds) = Ret tt →
  ∃ app,
    Ctx.obj (final (main w p cmds)) = Some app ∧
    App.servers app
    = App.servers (final (App.new w (server p) (embedded (user p)))) ∧
    query_calls (trace (main w p cmds))
    = queries_of (commands_run cmds) (embedded (user p)) (App.servers app).
Proof.
  intros Hret.
  destruct (main_returns w p cmds Hret) as (app & t & t2 & o & Hnew & Hf & Ho & Ht).
  pose proof (new_no_queries w (server p) (embedded (user p))) as Hq.
  pose proof (new_user w (server p) (embedded (user p))) as Hu.
  rewrite Hnew in Hq, Hu |- *.
  unfold result, final, trace in Hq, Hu. cbn [fst snd] in Hq, Hu.
  specialize (Hu eq_refl).
  destruct (cli_head_plain p) as (Hq0 & _).
  destruct (html_export_plain p) as (Hq1 & _).
  apply observe_eq in Hf as (Hfr & Hfo & Hft).
  destruct (invoke_all_queries w (commands_run cmds)
              (Ctx.set_obj (Some app) (initial_ctx p cmds)) app eq_refl Hfr)
    as (Hall & app' & Hobj & Hs).
  rewrite Hft in Hall. rewrite Hfo in Hobj.
  exists app'. split_and!; [by rewrite Ho | done |].
  rewrite Hs, <- Hu.
  destruct Ht as [-> | ->]; rewrite !query_calls_app, Hq0, Hq, Hq1, Hall;
    simpl; by rewrite ?app_nil_r.
Qed.




(** X16.  A run that returns has sent, for each subcommand run and in their
    order, the query of the subcommand to every server of the application,
    in the order of the configuration, and no other query.  The servers are
    those of the construction. *)
Theorem every_server_queried (w : World) (p : params) (cmds : list command) :
  result (main w p cmds) = Ret tt →
  ∃ app,
    Ctx.obj (final (main w p cmds)) = Some app ∧
    App.servers app
    = App.servers (final (App.new w (server p) (embedded (user p)))) ∧
    query_calls (trace (main w p cmds))
    = queries_of (commands_run cmds) (embedded (user p)) (App.servers app).
Proof. apply main_queries. Qed.

Lemma every_server_queried_witness :
  let w := Examples.world [Examples.entry_A; Examples.entry_B] in
  let p := Examples.options "self" false false in
  result (main w p [CmdIncoming]) = Ret tt ∧
  query_calls (trace (main w p [CmdIncoming]))
  = [ServerQuery Examples.srv_A "reviewer:self status:open";
     ServerQuery Examples.srv_B "reviewer:self status:open"].
Proof.
  split; [reflexivity|].
  destruct (every_server_queried
              (Examples.world [Examples.entry_A; Examples.entry_B])
              (Examples.options "self" false false) [CmdIncoming] eq_refl)
    as (app & Hobj & Hs & Hq).
  rewrite Hq, Hs. reflexivity.
Defined.

(** ** The quoting of the user string *)

Lemma char_in_append (c : ascii) (a b : string) :
  char_in c (a +:+ b) = char_in c a || char_in c b.
Proof.
  induction a as [|x a IH]; [done|].
  change (char_in c (String x (a +:+ b))
          = char_in c (String x a) || char_in c b).
  simpl. by destruct (decide (c = x)).
Qed.

Lemma length_append (a b : string) :
  String.length (a +:+ b) = (String.length a + String.length b)%nat.
Proof.
  induction a as [|x a IH]; [done|].
  change (S (String.length (a +:+ b)) = S (String.length a + String.length b)).
  by rewrite IH.
Qed.

Lemma append_cancel_r (a b c : string) : a +:+ c = b +:+ c → a = b.
Proof.
  revert b. induction a as [|x a IH]; intros [|y b] H.
  - done.
  - apply (f_equal String.length) in H. rewrite !length_append in H.
    simpl in H. lia.
  - apply (f_equal String.length) in H. rewrite !length_append in H.
    simpl in H. lia.
  - change (String x (a +:+ c) = String y (b +:+ c)) in H.
    injection H as -> H. f_equal. by apply IH.
Qed.

Lemma embedded_inj (u1 u2 : string) : embedded u1 = embedded u2 → u1 = u2.
Proof.
  unfold embedded. intros H.
  destruct (char_in " " u1) eqn:H1, (char_in " " u2) eqn:H2.
  - change (String "034" (u1 +:+ dquote) = String "034" (u2 +:+ dquote)) in H.
    injection H as H. by apply append_cancel_r in H.
  - exfalso. rewrite <- H in H2. unfold dquote in H2.
    rewrite !char_in_append, H1 in H2. simpl in H2.
    by destruct (decide (" "%char = "034"%char)).
  - exfalso. rewrite H in H1. unfold dquote in H1.
    rewrite !char_in_append, H2 in H1. simpl in H1.
    by destruct (decide (" "%char = "034"%char)).
  - done.
Qed.



(** X17.  The quoting of [cli] loses nothing: two runs whose applications store
    the same user string were given the same [--user] value. *)
Theorem user_quoting_injective (w1 w2 : World) (p1 p2 : params)
    (cmds1 cmds2 : list command) (app1 app2 : App.t) :
  Ctx.obj (final (main w1 p1 cmds1)) = Some app1 →
  Ctx.obj (final (main w2 p2 cmds2)) = Some app2 →
  App.user app1 = App.user app2 →
  user p1 = user p2.
Proof.
  intros H1 H2 Hu.
  destruct (main_hoare w1 p1 cmds1
              (λ app, App.user app = embedded (user p1)) (λ _, True))
    as [_ HI1]; [done | apply new_user | done | done |].
  destruct (main_hoare w2 p2 cmds2
              (λ app, App.user app = embedded (user p2)) (λ _, True))
    as [_ HI2]; [done | apply new_user | done | done |].
  apply embedded_inj. by rewrite <- (HI1 app1 H1), <- (HI2 app2 H2).
Qed.

Lemma user_quoting_injective_witness :
  let w := Examples.world [Examples.entry_A] in
  let p := Examples.options "John Doe" false false in
  App.user <$> Ctx.obj (final (main w p [])) = Some (embedded "John Doe") ∧
  user p = user p.
Proof.
  split; [reflexivity|].
  apply (user_quoting_injective
           (Examples.world [Examples.entry_A])
           (Examples.world [Examples.entry_A])
           (Examples.options "John Doe" false false)
           (Examples.options "John Doe" false false)
           [] [CmdIncoming]
           {| App.cfg := Examples.config [Examples.entry_A];
              App.servers := [Examples.srv_A];
              App.user := embedded "John Doe";
              App.reviews := stamped Examples.srv_A Examples.records_A |}
           {| App.cfg := Examples.config [Examples.entry_A];
              App.servers := [Examples.srv_A];
              App.user := embedded "John Doe";
              App.reviews := stamped Examples.srv_A Examples.records_A |});
    reflexivity.
Defined.
